(** * pgdoc: schema extraction and assembly

    A shallow embedding of the extraction pipeline of pgdoc (package
    [main]): the four catalog readers [getTableNames], [getColumns],
    [getConstraints], [getEnums] and the assembler [getFullSchema].

    The database behind [*sqrlx.Wrapper] is a record of catalog contents;
    every Go function returning [(T, error)] is a function into
    [result T]; errors are the messages built by [fmt.Errorf] or handed
    up from the driver.  Go slices are lists ([nil] and the empty slice
    are both [[]]), the map [pkCols] is a [gmap]. *)

From Stdlib Require Import ZArith Ascii DecimalString.
From stdpp Require Import base option list gmap strings.

Open Scope string_scope.
Open Scope list_scope.

(** ** Results: a value or an error message *)

Inductive result (A : Type) : Type :=
| Ok (a : A)
| Err (e : string).
Arguments Ok {A} a.
Arguments Err {A} e.

#[global] Instance result_ret : MRet result := fun A a => Ok a.
#[global] Instance result_bind : MBind result := fun A B k r =>
  match r with
  | Ok a => k a
  | Err e => Err e
  end.

Definition is_Ok {A} (r : result A) : Prop := ∃ a, r = Ok a.

(** ** Data model (the struct declarations of the source) *)

Record ColumnDefinition := {
  Column_Name : string;
  Column_DataType : string;
  Column_CustomType : bool;
  Column_Description : string;
  Column_IsNullable : bool;
}.

Record ColumnIdentity := {
  Ident_Table : string;
  Ident_Column : string;
}.

Record ConstraintDefinition := {
  LocalColumns : list ColumnIdentity;
  ForeignColumns : list ColumnIdentity;
  ConstraintName : string;
  ConstraintType : string;
}.

Record ForeignKeyDefinition := {
  FK_Column : string;
  FK_Name : string;
  FK_RefTable : string;
  FK_RefColumn : string;
}.

Record Table := {
  Table_Name : string;
  Table_Description : string;
  Table_KeyColumns : list ColumnDefinition;
  Table_Columns : list ColumnDefinition;
  Table_ForeignKeys : list ForeignKeyDefinition;
}.

Record Enum := {
  Enum_Name : string;
  Enum_Description : string;
  Enum_Values : list string;
}.

Record Schema := {
  Tables : list Table;
  Enums : list Enum;
}.

Record Config := {
  Exclude : list string;
  PostgresURL : string;
}.

(** ** The catalog behind the connection *)

(** A row of [information_schema.columns] right-joined with the column's
    [pg_description] entry; SQL NULL is [None]. *)
Record ColumnRow := {
  column_name : string;
  is_nullable : string;
  data_type : string;
  udt_name : string;
  numeric_precision : option Z;
  numeric_scale : option Z;
  character_maximum_length : option Z;
  pgd_description : option string;
}.

(** An enum type of [pg_type] with its [pg_enum] labels listed by
    [enumsortorder]. *)
Record EnumType := {
  typname : string;
  enumlabels : list string;
  typ_description : option string;
}.

(** What the database answers to each of the four queries, per schema
    (and table).  A query can fail as a whole.  For the table list, the
    columns and the enums the answer is the catalog content the select
    list is evaluated on; a constraint row is the [row_to_json] payload
    together with the outcome of [json.Unmarshal] on it.  The payloads
    are not assumed to obey the query's WHERE clause: the checks of
    [getFullSchema] are about payloads that do not. *)
Record Wrapper := {
  pg_statio_user_tables : string → result (list (string * option string));
  information_schema_columns : string → string → result (list ColumnRow);
  table_constraints : string → string → result (list (result ConstraintDefinition));
  pg_enum_types : string → result (list EnumType);
}.

(** ** SQL fragments evaluated by the queries *)

Definition COALESCE (v : option string) (d : string) : string :=
  match v with
  | Some s => s
  | None => d
  end.

(** [string_agg(label, sep ORDER BY ...)] over the rows of one group, the
    labels already in order; NULL over no rows. *)
Definition string_agg (sep : string) (labels : list string) : option string :=
  match labels with
  | [] => None
  | _ => Some (String.concat sep labels)
  end.

Definition text_of_int (z : Z) : string := NilZero.string_of_int (Z.to_int z).

#[warnings="-register-all"]
Inductive sqlexpr :=
| SqlCol (name : string)
| SqlLit (text : string)
| SqlConcat (args : list sqlexpr).

(** The text value of a column of the row; integers in their decimal
    form, which is how [CONCAT] prints them. *)
Definition column_value (r : ColumnRow) (name : string) : option string :=
  if String.eqb name "column_name" then Some (column_name r)
  else if String.eqb name "is_nullable" then Some (is_nullable r)
  else if String.eqb name "data_type" then Some (data_type r)
  else if String.eqb name "udt_name" then Some (udt_name r)
  else if String.eqb name "numeric_precision" then text_of_int <$> numeric_precision r
  else if String.eqb name "numeric_scale" then text_of_int <$> numeric_scale r
  else if String.eqb name "character_maximum_length" then
    text_of_int <$> character_maximum_length r
  else None.

(** [CONCAT] skips NULL arguments. *)
Fixpoint sql_eval (r : ColumnRow) (e : sqlexpr) : option string :=
  match e with
  | SqlCol name => column_value r name
  | SqlLit text => Some text
  | SqlConcat args =>
      Some (String.concat "" (map (fun a => COALESCE (sql_eval r a) "") args))
  end.

(** sqrl's [CaseBuilder]: [Case(what).When(v, t)...Else(e)] renders
    [CASE what WHEN v THEN t ... ELSE e END]. *)
Record CaseBuilder := {
  case_what : sqlexpr;
  case_whens : list (sqlexpr * sqlexpr);
  case_else : option sqlexpr;
}.

Definition Case (what : sqlexpr) : CaseBuilder :=
  {| case_what := what; case_whens := []; case_else := None |}.

Definition When (v t : sqlexpr) (b : CaseBuilder) : CaseBuilder :=
  {| case_what := case_what b;
     case_whens := case_whens b ++ [(v, t)];
     case_else := case_else b |}.

Definition Else (e : sqlexpr) (b : CaseBuilder) : CaseBuilder :=
  {| case_what := case_what b;
     case_whens := case_whens b;
     case_else := Some e |}.

(** [x = v] in a WHEN: a NULL on either side never matches. *)
Definition sql_equal (x v : option string) : bool :=
  match x, v with
  | Some a, Some b => String.eqb a b
  | _, _ => false
  end.

Fixpoint case_branches (r : ColumnRow) (x : option string)
    (whens : list (sqlexpr * sqlexpr)) (els : option sqlexpr) : option string :=
  match whens with
  | [] => els ≫= sql_eval r
  | (v, t) :: rest =>
      if sql_equal x (sql_eval r v) then sql_eval r t
      else case_branches r x rest els
  end.

Definition case_eval (r : ColumnRow) (b : CaseBuilder) : option string :=
  case_branches r (sql_eval r (case_what b)) (case_whens b) (case_else b).

(** ** getTableNames *)

(** The inner loop [for _, exc := range exclude]: true when it reaches
    [continue rows]. *)
Fixpoint excluded (exclude : list string) (name : string) : bool :=
  match exclude with
  | [] => false
  | exc :: rest => if String.eqb exc name then true else excluded rest name
  end.

Definition scanTable (row : string * option string) : Table :=
  {| Table_Name := row.1;
     Table_Description := COALESCE row.2 "";
     Table_KeyColumns := [];
     Table_Columns := [];
     Table_ForeignKeys := [] |}.

Fixpoint tableRows (exclude : list string) (rows : list (string * option string))
    (tables : list Table) : list Table :=
  match rows with
  | [] => tables
  | row :: rows' =>
      let table := scanTable row in
      if excluded exclude (Table_Name table) then tableRows exclude rows' tables
      else tableRows exclude rows' (tables ++ [table])
  end.

Definition getTableNames (db : Wrapper) (schema : string) (exclude : list string)
    : result (list Table) :=
  rows ← pg_statio_user_tables db schema;
  Ok (tableRows exclude rows []).

(** ** getEnums *)

(** [strings.Split(s, sep)] for a one-byte separator: [cur] is the piece
    being read. *)
Fixpoint split_from (sep : ascii) (cur : string) (s : string) : list string :=
  match s with
  | EmptyString => [cur]
  | String c s' =>
      if Ascii.eqb c sep then cur :: split_from sep "" s'
      else split_from sep (cur +:+ String c "") s'
  end.

Definition Split (s : string) (sep : ascii) : list string := split_from sep "" s.

(** The rows of the enum query: one per type having at least one label
    (the join with [pg_enum] drops the others). *)
Definition enumRow (t : EnumType) : option (string * string * string) :=
  labels ← string_agg "|" (enumlabels t);
  Some (typname t, labels, COALESCE (typ_description t) "").

Definition enumQuery (types : list EnumType) : list (string * string * string) :=
  omap enumRow types.

Definition scanEnum (row : string * string * string) : Enum :=
  let '(name, valsRaw, description) := row in
  {| Enum_Name := name;
     Enum_Description := description;
     Enum_Values := Split valsRaw "|" |}.

Fixpoint enumRows (rows : list (string * string * string)) (enums : list Enum)
    : list Enum :=
  match rows with
  | [] => enums
  | row :: rows' => enumRows rows' (enums ++ [scanEnum row])
  end.

Definition getEnums (db : Wrapper) (schema : string) : result (list Enum) :=
  match pg_enum_types db schema with
  | Err e => Err ("Looking up enums " +:+ e)
  | Ok types => Ok (enumRows (enumQuery types) [])
  end.

(** ** getColumns *)

Notation "b |> f" := (f b) (at level 45, left associativity, only parsing).

(** The [data_type] column of the select list. *)
Definition dataTypeCase : CaseBuilder :=
  Case (SqlCol "data_type")
  |> When (SqlLit "USER-DEFINED") (SqlCol "udt_name")
  |> When (SqlLit "numeric")
       (SqlConcat [SqlLit "Number("; SqlCol "numeric_precision"; SqlLit ",";
                   SqlCol "numeric_scale"; SqlLit ")"])
  |> When (SqlLit "character")
       (SqlConcat [SqlLit "Char("; SqlCol "character_maximum_length"; SqlLit ")"])
  |> When (SqlLit "timestamp with time zone") (SqlLit "timestamp")
  |> Else (SqlCol "data_type").

(** [sqrlx.ScanStruct] on one row of the select: the five tagged fields.
    A NULL cannot be scanned into a Go string. *)
Definition scanColumn (r : ColumnRow) : result ColumnDefinition :=
  match case_eval r dataTypeCase with
  | None => Err "converting NULL to string is unsupported"
  | Some dataType =>
      Ok {| Column_Name := column_name r;
            Column_DataType := dataType;
            Column_CustomType := String.eqb (data_type r) "USER-DEFINED";
            Column_Description := COALESCE (pgd_description r) "";
            Column_IsNullable := negb (String.eqb (is_nullable r) "NO") |}
  end.

Fixpoint columnRows (rows : list ColumnRow) (cols : list ColumnDefinition)
    : result (list ColumnDefinition) :=
  match rows with
  | [] => Ok cols
  | row :: rows' =>
      col ← scanColumn row;
      columnRows rows' (cols ++ [col])
  end.

Definition getColumns (db : Wrapper) (schema tableName : string)
    : result (list ColumnDefinition) :=
  rows ← information_schema_columns db schema tableName;
  columnRows rows [].

(** ** getConstraints *)

Fixpoint constraintRows (rows : list (result ConstraintDefinition))
    (cols : list ConstraintDefinition) : result (list ConstraintDefinition) :=
  match rows with
  | [] => Ok cols
  | row :: rows' =>
      col ← row;
      constraintRows rows' (cols ++ [col])
  end.

Definition getConstraints (db : Wrapper) (schema tableName : string)
    : result (list ConstraintDefinition) :=
  rows ← table_constraints db schema tableName;
  constraintRows rows [].

(** ** getFullSchema *)

(** The loop over [constraint.LocalColumns] of a PRIMARY KEY. *)
Fixpoint primaryKeyColumns (tableName : string) (constraint : ConstraintDefinition)
    (columns : list ColumnIdentity) (pkCols : gmap string ConstraintDefinition)
    : result (gmap string ConstraintDefinition) :=
  match columns with
  | [] => Ok pkCols
  | column :: columns' =>
      if negb (String.eqb (Ident_Table column) tableName) then
        Err ("Table " +:+ tableName +:+ " had primary key "
               +:+ ConstraintName constraint +:+ " in " +:+ Ident_Table column)
      else
        primaryKeyColumns tableName constraint columns'
          (<[Ident_Column column := constraint]> pkCols)
  end.

(** The body of the loop over [constraints]: the [switch] on the
    constraint type.  Indexing an empty slice panics in Go; the length
    test before it keeps that branch from being reached. *)
Definition classify (tableName : string)
    (st : gmap string ConstraintDefinition * list ForeignKeyDefinition)
    (constraint : ConstraintDefinition)
    : result (gmap string ConstraintDefinition * list ForeignKeyDefinition) :=
  let '(pkCols, fkCols) := st in
  if String.eqb (ConstraintType constraint) "PRIMARY KEY" then
    pkCols' ← primaryKeyColumns tableName constraint (LocalColumns constraint) pkCols;
    Ok (pkCols', fkCols)
  else if String.eqb (ConstraintType constraint) "FOREIGN KEY" then
    if negb (length (LocalColumns constraint) =? 1)%nat
       || negb (length (ForeignColumns constraint) =? 1)%nat then
      Err ("foreign keys should have 1 local, 1 foreign column. See "
             +:+ ConstraintName constraint)
    else
      match LocalColumns constraint !! 0%nat, ForeignColumns constraint !! 0%nat with
      | Some localCol, Some foreignCol =>
          if negb (String.eqb (Ident_Table localCol) tableName) then
            Err ("Table " +:+ tableName +:+ " had foreign key "
                   +:+ ConstraintName constraint +:+ " in " +:+ Ident_Table localCol)
          else
            Ok (pkCols,
                fkCols ++ [ {| FK_Column := Ident_Column localCol;
                               FK_Name := ConstraintName constraint;
                               FK_RefTable := Ident_Table foreignCol;
                               FK_RefColumn := Ident_Column foreignCol |} ])
      | _, _ => Err "index out of range"
      end
  else
    Err ("Unknown Constraint: " +:+ ConstraintType constraint).

Fixpoint classifyAll (tableName : string)
    (st : gmap string ConstraintDefinition * list ForeignKeyDefinition)
    (constraints : list ConstraintDefinition)
    : result (gmap string ConstraintDefinition * list ForeignKeyDefinition) :=
  match constraints with
  | [] => Ok st
  | constraint :: constraints' =>
      st' ← classify tableName st constraint;
      classifyAll tableName st' constraints'
  end.

(** The loop over [cols] filling [keyColumns] and [restColumns]. *)
Fixpoint partitionColumns (pkCols : gmap string ConstraintDefinition)
    (cols keyColumns restColumns : list ColumnDefinition)
    : list ColumnDefinition * list ColumnDefinition :=
  match cols with
  | [] => (keyColumns, restColumns)
  | col :: cols' =>
      match pkCols !! Column_Name col with
      | Some _ => partitionColumns pkCols cols' (keyColumns ++ [col]) restColumns
      | None => partitionColumns pkCols cols' keyColumns (restColumns ++ [col])
      end
  end.

(** One turn of [for idx, table := range tables], up to the three
    assignments to [tables[idx]]. *)
Definition assembleTable (db : Wrapper) (schema : string) (table : Table)
    : result Table :=
  cols ← getColumns db schema (Table_Name table);
  constraints ← getConstraints db schema (Table_Name table);
  st ← classifyAll (Table_Name table) (∅, []) constraints;
  let '(keyColumns, restColumns) := partitionColumns st.1 cols [] [] in
  Ok {| Table_Name := Table_Name table;
        Table_Description := Table_Description table;
        Table_KeyColumns := keyColumns;
        Table_Columns := restColumns;
        Table_ForeignKeys := st.2 |}.

(** The range loop itself: [n] turns are left, [idx] is the index of the
    next one; [tables[idx]] is overwritten in place. *)
Fixpoint rangeTables (db : Wrapper) (schema : string) (n idx : nat)
    (tables : list Table) : result (list Table) :=
  match n with
  | O => Ok tables
  | S n' =>
      match tables !! idx with
      | None => Ok tables
      | Some table =>
          table' ← assembleTable db schema table;
          rangeTables db schema n' (S idx) (<[idx := table']> tables)
      end
  end.

Definition getFullSchema (db : Wrapper) (schema : string) (config : Config)
    : result Schema :=
  tables ← getTableNames db schema (Exclude config);
  tables' ← rangeTables db schema (length tables) 0 tables;
  enums ← getEnums db schema;
  Ok {| Tables := tables'; Enums := enums |}.

(** ** PUMLWriter and pumlDump *)

(** The line feed of the Go literals ["\n"]. *)
Definition LF : string := String "010"%char "".

(** [fmt.Sprintf] for formats whose only verb is [%s], as all formats of
    the source are: each [%s] takes the next operand; a verb without
    operand and operands without verb are reported in the text, as Go
    does. *)
Definition extraOperands (args : list string) : string :=
  match args with
  | [] => ""
  | _ => "%!(EXTRA " +:+ String.concat ", " ((λ a, "string=" +:+ a) <$> args) +:+ ")"
  end.

Fixpoint Sprintf (format : string) (args : list string) : string :=
  match format with
  | EmptyString => extraOperands args
  | String c rest =>
      match c, rest with
      | "%"%char, String "s"%char rest' =>
          match args with
          | a :: args' => a +:+ Sprintf rest' args'
          | [] => "%!s(MISSING)" +:+ Sprintf rest' []
          end
      | _, _ => String c (Sprintf rest args)
      end
  end.

Record PUMLOptions := {
  IncludeColumns : bool;
  IncludeDataTypes : bool;
}.

Record PUMLWriter := {
  PUMLWriter_PUMLOptions : PUMLOptions;
  PUMLWriter_data : string;
}.

Definition PUMLWriter_Println (c : PUMLWriter) (str : string) : PUMLWriter :=
  {| PUMLWriter_PUMLOptions := PUMLWriter_PUMLOptions c;
     PUMLWriter_data := PUMLWriter_data c +:+ str +:+ LF |}.

Definition PUMLWriter_Printf (c : PUMLWriter) (str : string) (p : list string)
    : PUMLWriter :=
  {| PUMLWriter_PUMLOptions := PUMLWriter_PUMLOptions c;
     PUMLWriter_data := PUMLWriter_data c +:+ Sprintf str p |}.

Definition PUMLWriter_Column (c : PUMLWriter) (column : ColumnDefinition)
    : PUMLWriter :=
  let prefix := if Column_IsNullable column then "" else "* " in
  if IncludeDataTypes (PUMLWriter_PUMLOptions c) then
    PUMLWriter_Printf c ("  %s%s: %s" +:+ LF)
      [prefix; Column_Name column; Column_DataType column]
  else
    PUMLWriter_Printf c ("  %s%s" +:+ LF) [prefix; Column_Name column].

Definition PUMLWriter_Table (c : PUMLWriter) (table : Table) : PUMLWriter :=
  let c := PUMLWriter_Printf c ("entity %s {" +:+ LF) [Table_Name table] in
  let c := fold_left PUMLWriter_Column (Table_KeyColumns table) c in
  let c := PUMLWriter_Println c "--" in
  let c := fold_left PUMLWriter_Column (Table_Columns table) c in
  PUMLWriter_Println c "}".

Definition PUMLWriter_Schema (c : PUMLWriter) (schema : Schema) : PUMLWriter :=
  let c := PUMLWriter_Println c "@startuml" in
  let c :=
    if IncludeColumns (PUMLWriter_PUMLOptions c)
    then fold_left PUMLWriter_Table (Tables schema) c
    else c in
  let c :=
    fold_left (λ c table,
      fold_left (λ c fk,
        PUMLWriter_Printf c ("%s }|--|| %s" +:+ LF)
          [Table_Name table; FK_RefTable fk])
        (Table_ForeignKeys table) c)
      (Tables schema) c in
  PUMLWriter_Println c "@enduml".

(** [pumlDump]: [Write] is the writer's method; an error of it makes the
    function panic, which is the [Err] here. *)
Definition pumlDump (schema : Schema) (Write : string → result nat)
    (options : PUMLOptions) : result unit :=
  let c := {| PUMLWriter_PUMLOptions := options; PUMLWriter_data := "" |} in
  let c := PUMLWriter_Schema c schema in
  match Write (PUMLWriter_data c) with
  | Err e => Err e
  | Ok _ => Ok tt
  end.

(** ** Reading the loops as list functions *)

(** Running a fallible step over a list, stopping at the first error:
    what the range loop of [getFullSchema] amounts to. *)
Fixpoint mapM {A B} (f : A → result B) (l : list A) : result (list B) :=
  match l with
  | [] => Ok []
  | a :: l' => b ← f a; bs ← mapM f l'; Ok (b :: bs)
  end.

(** The names a constraint list puts into the key set. *)
Definition primaryKeyNames (constraints : list ConstraintDefinition) : list string :=
  constraints ≫= λ c,
    if String.eqb (ConstraintType c) "PRIMARY KEY"
    then Ident_Column <$> LocalColumns c else [].

(** The foreign-key entry of a constraint that passes the checks. *)
Definition foreignKeyOf (c : ConstraintDefinition) : option ForeignKeyDefinition :=
  if String.eqb (ConstraintType c) "FOREIGN KEY" then
    match LocalColumns c, ForeignColumns c with
    | [localCol], [foreignCol] =>
        Some {| FK_Column := Ident_Column localCol;
                FK_Name := ConstraintName c;
                FK_RefTable := Ident_Table foreignCol;
                FK_RefColumn := Ident_Column foreignCol |}
    | _, _ => None
    end
  else None.

(** ** The template functions of mdDump *)

(** [strings.ReplaceAll(s, old, new)] for a non-empty [old], as in all
    calls of the source: instances of [old] are replaced from the left
    and do not overlap; [skip] bytes of a replaced instance are still to
    be passed over.  (With an empty [old] Go inserts [new] around every
    rune; that case is not covered.) *)
Fixpoint replace_from (old new : string) (skip : nat) (s : string) : string :=
  match s with
  | EmptyString => EmptyString
  | String c s' =>
      match skip with
      | S skip' => replace_from old new skip' s'
      | O =>
          if String.prefix old s
          then new +:+ replace_from old new (String.length old - 1) s'
          else String c (replace_from old new 0 s')
      end
  end.

Definition ReplaceAll (s old new : string) : string := replace_from old new 0 s.

Definition mdescape (val : string) : string :=
  let val := ReplaceAll val (LF +:+ LF) "<br>" in
  let val := ReplaceAll val LF " " in
  val.

Section TitleCase.
(** [strings.ToTitle], which maps runes through the Unicode tables, is
    taken as given. *)
Variable ToTitle : string → string.

(** One turn of the loop over [words] in [snakeToTitle]: the slices
    [word[0:1]] and [word[1:]] are taken only of a word of two bytes or
    more. *)
Definition titleWord (word : string) : string :=
  if (2 <=? String.length word)%nat then
    ToTitle (String.substring 0 1 word) +:+ String.substring 1 (String.length word - 1) word
  else word.

(** The turns of the loop are independent: each rewrites [words[idx]]
    from the word read at [idx]. *)
Definition snakeToTitle (val : string) : string :=
  let words := Split val "_" in
  String.concat " " (titleWord <$> words).

(** The same function in [src/main.go], without the length test: the
    slice [word[0:1]] of an empty word is out of range and panics. *)
Definition titleWord0 (word : string) : result string :=
  if (1 <=? String.length word)%nat then
    Ok (ToTitle (String.substring 0 1 word) +:+ String.substring 1 (String.length word - 1) word)
  else Err "slice bounds out of range [:1] with length 0".

Definition snakeToTitle0 (val : string) : result string :=
  words ← mapM titleWord0 (Split val "_");
  Ok (String.concat " " words).
End TitleCase.

(** The type-formatting rule as the specification words it, with the
    custom-type flag; a missing precision, scale or length prints as
    nothing. *)
Definition optional_int (v : option Z) : string :=
  match v with
  | Some z => text_of_int z
  | None => ""
  end.

Definition typeFormattingRule (r : ColumnRow) : string * bool :=
  if decide (data_type r = "USER-DEFINED") then (udt_name r, true)
  else if decide (data_type r = "numeric") then
    ("Number(" +:+ optional_int (numeric_precision r) +:+ ","
       +:+ optional_int (numeric_scale r) +:+ ")", false)
  else if decide (data_type r = "character") then
    ("Char(" +:+ optional_int (character_maximum_length r) +:+ ")", false)
  else if decide (data_type r = "timestamp with time zone") then ("timestamp", false)
  else (data_type r, false).

Definition formattedColumn (r : ColumnRow) : ColumnDefinition :=
  {| Column_Name := column_name r;
     Column_DataType := (typeFormattingRule r).1;
     Column_CustomType := (typeFormattingRule r).2;
     Column_Description := COALESCE (pgd_description r) "";
     Column_IsNullable := negb (String.eqb (is_nullable r) "NO") |}.

(** Whether a byte occurs in a string. *)
Fixpoint contains (sep : ascii) (s : string) : bool :=
  match s with
  | EmptyString => false
  | String c s' => Ascii.eqb c sep || contains sep s'
  end.

(** Two catalogs give the same answers to the four queries. *)
Definition sameCatalog (schema : string) (db db' : Wrapper) : Prop :=
  pg_statio_user_tables db schema = pg_statio_user_tables db' schema ∧
  (∀ tableName, information_schema_columns db schema tableName =
                information_schema_columns db' schema tableName) ∧
  (∀ tableName, table_constraints db schema tableName =
                table_constraints db' schema tableName) ∧
  pg_enum_types db schema = pg_enum_types db' schema.

(** A FOREIGN KEY constraint the scan accepts for [tableName]. *)
Definition simpleForeignKey (tableName : string) (c : ConstraintDefinition) : Prop :=
  ConstraintType c = "FOREIGN KEY" ∧
  ∃ localCol foreignCol,
    LocalColumns c = [localCol] ∧ ForeignColumns c = [foreignCol] ∧
    Ident_Table localCol = tableName.

(** ** A sample catalog

    Tables [users], [orders], [logs] and [logs_archive]; [orders] points
    at [users] and at [logs]; [logs] has no primary key.  The constraint
    rows of [orders] are left open so that the same catalog serves for
    well-formed and for rejected payloads. *)

Definition sampleColumn (name dataType udt : string)
    (precision scale maxLength : option Z) (nullable : string) : ColumnRow :=
  {| column_name := name; is_nullable := nullable; data_type := dataType;
     udt_name := udt; numeric_precision := precision; numeric_scale := scale;
     character_maximum_length := maxLength; pgd_description := None |}.

Definition usersColumns : list ColumnRow :=
  [ sampleColumn "id" "integer" "int4" (Some 32%Z) (Some 0%Z) None "NO";
    sampleColumn "email" "character" "bpchar" None None (Some 20%Z) "NO";
    sampleColumn "role" "USER-DEFINED" "role" None None None "YES";
    sampleColumn "balance" "numeric" "numeric" (Some 10%Z) (Some 2%Z) None "YES";
    sampleColumn "created" "timestamp with time zone" "timestamptz" None None None "NO" ].

Definition ordersColumns : list ColumnRow :=
  [ sampleColumn "user_id" "integer" "int4" (Some 32%Z) (Some 0%Z) None "NO";
    sampleColumn "id" "integer" "int4" (Some 32%Z) (Some 0%Z) None "NO";
    sampleColumn "log_id" "integer" "int4" (Some 32%Z) (Some 0%Z) None "YES";
    sampleColumn "line" "integer" "int4" (Some 32%Z) (Some 0%Z) None "NO" ].

Definition logsColumns : list ColumnRow :=
  [ sampleColumn "id" "integer" "int4" (Some 32%Z) (Some 0%Z) None "NO";
    sampleColumn "message" "text" "text" None None None "YES" ].

Definition ident (table column : string) : ColumnIdentity :=
  {| Ident_Table := table; Ident_Column := column |}.

Definition usersKey : ConstraintDefinition :=
  {| LocalColumns := [ident "users" "id"]; ForeignColumns := [];
     ConstraintName := "users_pkey"; ConstraintType := "PRIMARY KEY" |}.

Definition ordersKey : ConstraintDefinition :=
  {| LocalColumns := [ident "orders" "line"; ident "orders" "id"];
     ForeignColumns := [];
     ConstraintName := "orders_pkey"; ConstraintType := "PRIMARY KEY" |}.

Definition ordersUser : ConstraintDefinition :=
  {| LocalColumns := [ident "orders" "user_id"];
     ForeignColumns := [ident "users" "id"];
     ConstraintName := "orders_user_fk"; ConstraintType := "FOREIGN KEY" |}.

Definition ordersLog : ConstraintDefinition :=
  {| LocalColumns := [ident "orders" "log_id"];
     ForeignColumns := [ident "logs" "id"];
     ConstraintName := "orders_log_fk"; ConstraintType := "FOREIGN KEY" |}.

Definition sampleDb (ordersConstraints : list ConstraintDefinition) : Wrapper :=
  {| pg_statio_user_tables := λ _,
       Ok [("users", Some "People"); ("logs", None); ("orders", None);
           ("logs_archive", None)];
     information_schema_columns := λ _ tableName,
       if String.eqb tableName "users" then Ok usersColumns
       else if String.eqb tableName "orders" then Ok ordersColumns
       else Ok logsColumns;
     table_constraints := λ _ tableName,
       if String.eqb tableName "users" then Ok [Ok usersKey]
       else if String.eqb tableName "orders" then Ok (Ok <$> ordersConstraints)
       else Ok [];
     pg_enum_types := λ _,
       Ok [ {| typname := "status";
               enumlabels := ["active"; "archived"; "deleted"];
               typ_description := None |};
            {| typname := "role";
               enumlabels := ["admin"; "member"];
               typ_description := Some "Access level" |} ] |}.

Definition sampleConfig : Config :=
  {| Exclude := ["logs"]; PostgresURL := "postgres://localhost/sample" |}.

(** Payloads the scan rejects. *)
Definition ordersPair : ConstraintDefinition :=
  {| LocalColumns := [ident "orders" "user_id"; ident "orders" "line"];
     ForeignColumns := [ident "users" "id"; ident "users" "email"];
     ConstraintName := "orders_pair_fk"; ConstraintType := "FOREIGN KEY" |}.

Definition ordersStray : ConstraintDefinition :=
  {| LocalColumns := [ident "users" "id"];
     ForeignColumns := [];
     ConstraintName := "orders_stray_fk"; ConstraintType := "FOREIGN KEY" |}.

Definition ordersElsewhere : ConstraintDefinition :=
  {| LocalColumns := [ident "users" "id"];
     ForeignColumns := [ident "logs" "id"];
     ConstraintName := "orders_elsewhere_fk"; ConstraintType := "FOREIGN KEY" |}.

Definition ordersKeyElsewhere : ConstraintDefinition :=
  {| LocalColumns := [ident "orders" "id"; ident "users" "id"];
     ForeignColumns := [];
     ConstraintName := "orders_wide_pkey"; ConstraintType := "PRIMARY KEY" |}.

Definition ordersKeyTwoElsewhere : ConstraintDefinition :=
  {| LocalColumns := [ident "orders" "id"; ident "users" "id"; ident "logs" "id"];
     ForeignColumns := [];
     ConstraintName := "orders_wider_pkey"; ConstraintType := "PRIMARY KEY" |}.

Definition ordersCheck : ConstraintDefinition :=
  {| LocalColumns := [ident "orders" "line"];
     ForeignColumns := [];
     ConstraintName := "orders_line_check"; ConstraintType := "CHECK" |}.

(** The table stubs [getTableNames] returns for the sample catalog, and
    the key set once [ordersKey] has been scanned. *)
Definition usersStub : Table := scanTable ("users", Some "People").
Definition ordersStub : Table := scanTable ("orders", None).
Definition archiveStub : Table := scanTable ("logs_archive", None).

Definition ordersKeySet : gmap string ConstraintDefinition :=
  <["id" := ordersKey]> (<["line" := ordersKey]> ∅).

(** A catalog holding only enum types, and an enum one of whose labels
    contains the delimiter of the enum query. *)
Definition enumDb (types : list EnumType) : Wrapper :=
  {| pg_statio_user_tables := λ _, Ok [];
     information_schema_columns := λ _ _, Ok [];
     table_constraints := λ _ _, Ok [];
     pg_enum_types := λ _, Ok types |}.

Definition choiceEnum : EnumType :=
  {| typname := "choice"; enumlabels := ["yes|no"; "maybe"];
     typ_description := None |}.

Definition statusEnum : EnumType :=
  {| typname := "status"; enumlabels := ["active"; "archived"; "deleted"];
     typ_description := None |}.

(** The same catalog behind a connection that knows the schema
    [public] only. *)
Definition publicOnly (db : Wrapper) : Wrapper :=
  {| pg_statio_user_tables := λ schema,
       if String.eqb schema "public" then pg_statio_user_tables db schema
       else Err "no such schema";
     information_schema_columns := λ schema tableName,
       if String.eqb schema "public"
       then information_schema_columns db schema tableName
       else Err "no such schema";
     table_constraints := λ schema tableName,
       if String.eqb schema "public" then table_constraints db schema tableName
       else Err "no such schema";
     pg_enum_types := λ schema,
       if String.eqb schema "public" then pg_enum_types db schema
       else Err "no such schema" |}.

Definition sampleRun : result Schema :=
  getFullSchema (sampleDb [ordersKey; ordersUser; ordersLog]) "public" sampleConfig.

Definition sampleSchema : Schema :=
  Eval vm_compute in
    match sampleRun with
    | Ok s => s
    | Err _ => {| Tables := []; Enums := [] |}
    end.

Definition sampleOrders : Table :=
  Eval vm_compute in
    match Tables sampleSchema !! 1%nat with
    | Some table => table
    | None => scanTable ("", None)
    end.

(** ** Further readings of the assembler *)

(** A constraint the scan of [tableName] lets pass: a PRIMARY KEY all of
    whose local columns are owned by the table, or a single-column
    FOREIGN KEY of the table. *)
Definition acceptable (tableName : string) (c : ConstraintDefinition) : Prop :=
  (ConstraintType c = "PRIMARY KEY" ∧
   Forall (λ column, Ident_Table column = tableName) (LocalColumns c)) ∨
  simpleForeignKey tableName c.

(** The part of a loop turn of [getFullSchema] that follows the two
    queries, as a function of their answers. *)
Definition assembleFrom (table : Table) (cols : list ColumnDefinition)
    (constraints : list ConstraintDefinition) : result Table :=
  st ← classifyAll (Table_Name table) (∅, []) constraints;
  let '(keyColumns, restColumns) := partitionColumns st.1 cols [] [] in
  Ok {| Table_Name := Table_Name table;
        Table_Description := Table_Description table;
        Table_KeyColumns := keyColumns;
        Table_Columns := restColumns;
        Table_ForeignKeys := st.2 |}.

(** The enum an enum type stands for when its labels come through
    unharmed. *)
Definition enumOf (t : EnumType) : Enum :=
  {| Enum_Name := typname t;
     Enum_Description := COALESCE (typ_description t) "";
     Enum_Values := enumlabels t |}.

(** The sample catalog with the column query of one table failing. *)
Definition columnsDenied (tableName : string) (db : Wrapper) : Wrapper :=
  {| pg_statio_user_tables := pg_statio_user_tables db;
     information_schema_columns := λ schema name,
       if String.eqb name tableName then Err "permission denied"
       else information_schema_columns db schema name;
     table_constraints := table_constraints db;
     pg_enum_types := pg_enum_types db |}.

(** The sample catalog with the enum query failing. *)
Definition enumsDenied (db : Wrapper) : Wrapper :=
  {| pg_statio_user_tables := pg_statio_user_tables db;
     information_schema_columns := information_schema_columns db;
     table_constraints := table_constraints db;
     pg_enum_types := λ _, Err "permission denied" |}.

(** A catalog whose second constraint row does not decode. *)
Definition truncatedDb : Wrapper :=
  {| pg_statio_user_tables := λ _, Ok [("users", None)];
     information_schema_columns := λ _ _, Ok usersColumns;
     table_constraints := λ _ _,
       Ok [Ok usersKey; Err "unexpected end of JSON input"; Ok ordersPair];
     pg_enum_types := λ _, Ok [] |}.

(** An enum type without labels. *)
Definition emptyEnum : EnumType :=
  {| typname := "nothing"; enumlabels := []; typ_description := Some "No value" |}.

(** ** The diagram text, line by line *)

Definition joined (pieces : list string) : string := foldr String.append "" pieces.

Definition columnLine (options : PUMLOptions) (column : ColumnDefinition) : string :=
  "  " +:+ (if Column_IsNullable column then "" else "* ") +:+ Column_Name column
    +:+ (if IncludeDataTypes options then ": " +:+ Column_DataType column else "")
    +:+ LF.

Definition entityBlock (options : PUMLOptions) (table : Table) : string :=
  "entity " +:+ Table_Name table +:+ " {" +:+ LF
    +:+ joined (columnLine options <$> Table_KeyColumns table)
    +:+ "--" +:+ LF
    +:+ joined (columnLine options <$> Table_Columns table)
    +:+ "}" +:+ LF.

Definition relationLine (table : Table) (fk : ForeignKeyDefinition) : string :=
  Table_Name table +:+ " }|--|| " +:+ FK_RefTable fk +:+ LF.

Definition relationLines (table : Table) : string :=
  joined (relationLine table <$> Table_ForeignKeys table).

Definition diagram (options : PUMLOptions) (schema : Schema) : string :=
  "@startuml" +:+ LF
    +:+ (if IncludeColumns options
         then joined (entityBlock options <$> Tables schema) else "")
    +:+ joined (relationLines <$> Tables schema)
    +:+ "@enduml" +:+ LF.

(** What of a column and of a table the diagram can show. *)
Definition columnView (options : PUMLOptions) (column : ColumnDefinition)
    : string * bool * string :=
  (Column_Name column, Column_IsNullable column,
   if IncludeDataTypes options then Column_DataType column else "").

Definition tableView (options : PUMLOptions) (table : Table)
    : string * list (string * bool * string) * list (string * bool * string)
      * list string :=
  (Table_Name table,
   if IncludeColumns options
   then columnView options <$> Table_KeyColumns table else [],
   if IncludeColumns options
   then columnView options <$> Table_Columns table else [],
   FK_RefTable <$> Table_ForeignKeys table).

(** The number of occurrences of a byte, and schemas none of whose
    names and types holds a line feed. *)
Fixpoint countByte (b : ascii) (s : string) : nat :=
  match s with
  | EmptyString => 0
  | String c s' => (if Ascii.eqb c b then 1 else 0) + countByte b s'
  end.

Definition oneLine (s : string) : Prop := countByte "010" s = 0.

Definition oneLineColumn (column : ColumnDefinition) : Prop :=
  oneLine (Column_Name column) ∧ oneLine (Column_DataType column).

Definition oneLineTable (table : Table) : Prop :=
  oneLine (Table_Name table) ∧
  Forall oneLineColumn (Table_KeyColumns table) ∧
  Forall oneLineColumn (Table_Columns table) ∧
  Forall (λ fk, oneLine (FK_RefTable fk)) (Table_ForeignKeys table).

Definition writeAll (text : string) : result nat := Ok (String.length text).

(** A stand-in for [strings.ToTitle] on ASCII text: the letters [a] to
    [z] become [A] to [Z]. *)
Definition upperByte (c : ascii) : ascii :=
  let n := nat_of_ascii c in
  if ((97 <=? n) && (n <=? 122))%nat then ascii_of_nat (n - 32) else c.

Fixpoint upperASCII (s : string) : string :=
  match s with
  | EmptyString => EmptyString
  | String c s' => String (upperByte c) (upperASCII s')
  end.

(** * Properties *)

(** ** Loops that append are maps and filters *)

Lemma excluded_elem_of exclude name :
  excluded exclude name = true ↔ name ∈ exclude.
Proof.
  induction exclude as [|exc rest IH]; simpl.
  - split; [discriminate | by intros ?%elem_of_nil].
  - rewrite elem_of_cons. destruct (String.eqb_spec exc name) as [->|Hne].
    + split; auto.
    + rewrite IH. split; [auto | intros [?|?]; [congruence | done]].
Qed.

Lemma tableRows_filter exclude rows tables :
  tableRows exclude rows tables =
  tables ++ (scanTable <$> filter (λ row, row.1 ∉ exclude) rows).
Proof.
  revert tables. induction rows as [|row rows IH]; intros tables; simpl.
  - by rewrite app_nil_r.
  - rewrite filter_cons. destruct (excluded exclude row.1) eqn:Hex.
    + apply excluded_elem_of in Hex. rewrite decide_False by auto. apply IH.
    + rewrite decide_True.
      * rewrite IH, <- app_assoc. done.
      * intros Hin%excluded_elem_of. congruence.
Qed.

Lemma enumRows_map rows enums :
  enumRows rows enums = enums ++ (scanEnum <$> rows).
Proof.
  revert enums. induction rows as [|row rows IH]; intros enums; simpl.
  - by rewrite app_nil_r.
  - by rewrite IH, <- app_assoc.
Qed.

Lemma mapM_Ok {A B} (f : A → result B) l l' :
  mapM f l = Ok l' ↔ Forall2 (λ a b, f a = Ok b) l l'.
Proof.
  revert l'. induction l as [|a l IH]; intros l'; simpl.
  - split; [intros [= <-]; constructor | by intros ->%Forall2_nil_inv_l].
  - split.
    + destruct (f a) as [b|e] eqn:Hfa; simpl; [|discriminate].
      destruct (mapM f l) as [bs|e] eqn:Hl; simpl; [|discriminate].
      intros [= <-]. constructor; [done | by apply IH].
    + intros (b & bs & Hb & Hbs & ->)%Forall2_cons_inv_l.
      rewrite Hb. simpl. apply IH in Hbs. by rewrite Hbs.
Qed.

Lemma mapM_Err {A B} (f : A → result B) done a rest e :
  Forall (λ x, is_Ok (f x)) done → f a = Err e →
  mapM f (done ++ a :: rest) = Err e.
Proof.
  intros Hdone Ha. induction Hdone as [|x done [b Hb] _ IH]; simpl.
  - by rewrite Ha.
  - by rewrite Hb, IH.
Qed.

Lemma rangeTables_mapM db schema done rest :
  rangeTables db schema (length rest) (length done) (done ++ rest) =
  match mapM (assembleTable db schema) rest with
  | Ok rest' => Ok (done ++ rest')
  | Err e => Err e
  end.
Proof.
  revert done. induction rest as [|table rest IH]; intros done; simpl.
  - done.
  - rewrite list_lookup_middle by done.
    destruct (assembleTable db schema table) as [table'|e]; simpl; [|done].
    replace (<[length done := table']> (done ++ table :: rest))
      with ((done ++ [table']) ++ rest).
    + replace (S (length done)) with (length (done ++ [table']))
        by (rewrite length_app; simpl; lia).
      rewrite IH. destruct (mapM _ rest); simpl; [|done].
      by rewrite <- app_assoc.
    + rewrite <- app_assoc. simpl. symmetry.
      rewrite insert_app_r_alt by done. by rewrite Nat.sub_diag.
Qed.

Lemma getFullSchema_unfold db schema config :
  getFullSchema db schema config =
  tables ← getTableNames db schema (Exclude config);
  tables' ← mapM (assembleTable db schema) tables;
  enums ← getEnums db schema;
  Ok {| Tables := tables'; Enums := enums |}.
Proof.
  unfold getFullSchema.
  destruct (getTableNames db schema (Exclude config)) as [tables|e]; simpl; [|done].
  pose proof (rangeTables_mapM db schema [] tables) as H. simpl in H.
  rewrite H. by destruct (mapM _ tables).
Qed.

(** ** The constraint scan *)

Lemma primaryKeyColumns_Ok tableName c columns pkCols pkCols' :
  primaryKeyColumns tableName c columns pkCols = Ok pkCols' →
  Forall (λ column, Ident_Table column = tableName) columns ∧
  ∀ name, is_Some (pkCols' !! name) ↔
          is_Some (pkCols !! name) ∨ name ∈ Ident_Column <$> columns.
Proof.
  revert pkCols. induction columns as [|column columns IH]; intros pkCols; simpl.
  - intros [= <-]. split; [constructor|].
    intros name. rewrite elem_of_nil. tauto.
  - destruct (String.eqb_spec (Ident_Table column) tableName) as [Heq|Hne];
      simpl; [|discriminate].
    intros [Hall Hdom]%IH. split; [by constructor|].
    intros name. rewrite Hdom, elem_of_cons, lookup_insert_is_Some.
    destruct (decide (Ident_Column column = name)) as [->|Hne]; [split; auto|].
    split; [intros [[? | [_ ?]] | ?] | intros [? | [? | ?]]]; auto; congruence.
Qed.

Lemma primaryKeyColumns_total tableName c columns pkCols :
  Forall (λ column, Ident_Table column = tableName) columns →
  is_Ok (primaryKeyColumns tableName c columns pkCols).
Proof.
  intros Hall. revert pkCols.
  induction Hall as [|column columns Heq _ IH]; intros pkCols; simpl.
  - by eexists.
  - rewrite <- Heq, String.eqb_refl. simpl. rewrite Heq. apply IH.
Qed.

Lemma primaryKeyColumns_Err tableName c columns pkCols :
  Exists (λ column, Ident_Table column ≠ tableName) columns →
  ∃ column, column ∈ columns ∧ Ident_Table column ≠ tableName ∧
    primaryKeyColumns tableName c columns pkCols =
      Err ("Table " +:+ tableName +:+ " had primary key " +:+ ConstraintName c
             +:+ " in " +:+ Ident_Table column).
Proof.
  revert pkCols. induction columns as [|column columns IH]; intros pkCols Hex.
  - by apply Exists_nil in Hex.
  - simpl. destruct (String.eqb_spec (Ident_Table column) tableName) as [Heq|Hne]; simpl.
    + apply Exists_cons in Hex as [?|Hex]; [done|].
      destruct (IH (<[Ident_Column column := c]> pkCols) Hex) as (col & ? & ? & ?).
      exists col. split; [by right | done].
    + exists column. split; [by left | done].
Qed.

Lemma primaryKeyColumns_Err_first tableName c columns pkCols :
  Exists (λ column, Ident_Table column ≠ tableName) columns →
  ∃ owned column others,
    columns = owned ++ column :: others ∧
    Forall (λ col, Ident_Table col = tableName) owned ∧
    Ident_Table column ≠ tableName ∧
    primaryKeyColumns tableName c columns pkCols =
      Err ("Table " +:+ tableName +:+ " had primary key " +:+ ConstraintName c
             +:+ " in " +:+ Ident_Table column).
Proof.
  revert pkCols. induction columns as [|col columns IH]; intros pkCols Hex.
  - by apply Exists_nil in Hex.
  - simpl. destruct (String.eqb_spec (Ident_Table col) tableName) as [Heq|Hne]; simpl.
    + apply Exists_cons in Hex as [?|Hex]; [done|].
      destruct (IH (<[Ident_Column col := c]> pkCols) Hex)
        as (owned & column & others & -> & Hown & Hstray & Herr).
      exists (col :: owned), column, others.
      split; [done|]. split; [by constructor|]. done.
    + exists [], col, columns. split; [done|]. split; [constructor|]. done.
Qed.

Lemma classify_Ok tableName pkCols fkCols c pkCols' fkCols' :
  classify tableName (pkCols, fkCols) c = Ok (pkCols', fkCols') →
  (ConstraintType c = "PRIMARY KEY" ∨ ConstraintType c = "FOREIGN KEY") ∧
  (∀ name, is_Some (pkCols' !! name) ↔
           is_Some (pkCols !! name) ∨ name ∈ primaryKeyNames [c]) ∧
  fkCols' = fkCols ++ omap foreignKeyOf [c].
Proof.
  unfold classify, primaryKeyNames, foreignKeyOf. simpl.
  destruct (String.eqb_spec (ConstraintType c) "PRIMARY KEY") as [Hpk|Hnpk].
  - destruct (primaryKeyColumns _ _ _ _) as [pk|e] eqn:Hpkc; simpl; [|discriminate].
    intros [= <- <-]. apply primaryKeyColumns_Ok in Hpkc as [_ Hdom].
    rewrite Hpk. simpl. rewrite !app_nil_r. auto.
  - destruct (String.eqb_spec (ConstraintType c) "FOREIGN KEY") as [Hfk|Hnfk];
      [|discriminate].
    destruct (LocalColumns c) as [|localCol [|]]; simpl; try discriminate.
    destruct (ForeignColumns c) as [|foreignCol [|]]; simpl; try discriminate.
    destruct (String.eqb (Ident_Table localCol) tableName); simpl; [|discriminate].
    intros [= <- <-]. split; [auto|]. split; [|done].
    intros name. rewrite elem_of_nil. tauto.
Qed.

Lemma classifyAll_app tableName st pre post :
  classifyAll tableName st (pre ++ post) =
  classifyAll tableName st pre ≫= λ st', classifyAll tableName st' post.
Proof.
  revert st. induction pre as [|c pre IH]; intros st; simpl; [done|].
  destruct (classify tableName st c); simpl; [apply IH | done].
Qed.

Lemma classifyAll_Ok tableName pkCols fkCols constraints pkCols' fkCols' :
  classifyAll tableName (pkCols, fkCols) constraints = Ok (pkCols', fkCols') →
  Forall (λ c, ConstraintType c = "PRIMARY KEY" ∨ ConstraintType c = "FOREIGN KEY")
    constraints ∧
  (∀ name, is_Some (pkCols' !! name) ↔
           is_Some (pkCols !! name) ∨ name ∈ primaryKeyNames constraints) ∧
  fkCols' = fkCols ++ omap foreignKeyOf constraints.
Proof.
  revert pkCols fkCols.
  induction constraints as [|c constraints IH]; intros pkCols fkCols.
  - intros [= <- <-]. split; [constructor|]. split; [|by rewrite app_nil_r].
    intros name. unfold primaryKeyNames. simpl. rewrite elem_of_nil. tauto.
  - cbn [classifyAll].
    destruct (classify tableName (pkCols, fkCols) c) as [[pk1 fk1]|e] eqn:Hc;
      [|discriminate]. cbn [mbind result_bind].
    intros (Hkinds & Hdom & Hfk)%IH.
    apply classify_Ok in Hc as (Hkind & Hdom1 & Hfk1).
    split; [by constructor|]. split.
    + intros name. rewrite Hdom, Hdom1. unfold primaryKeyNames. simpl.
      rewrite app_nil_r, elem_of_app. tauto.
    + rewrite Hfk, Hfk1. simpl.
      destruct (foreignKeyOf c); simpl; by rewrite <- ?app_assoc, ?app_nil_r.
Qed.

Lemma classifyAll_Err tableName st pre c post st' e :
  classifyAll tableName st pre = Ok st' →
  classify tableName st' c = Err e →
  classifyAll tableName st (pre ++ c :: post) = Err e.
Proof.
  intros Hpre Hc. rewrite classifyAll_app, Hpre. simpl. by rewrite Hc.
Qed.

(** ** The partition of the columns *)

Lemma partitionColumns_filter pkCols cols keyColumns restColumns :
  partitionColumns pkCols cols keyColumns restColumns =
  (keyColumns ++ filter (λ col, is_Some (pkCols !! Column_Name col)) cols,
   restColumns ++ filter (λ col, ¬ is_Some (pkCols !! Column_Name col)) cols).
Proof.
  revert keyColumns restColumns.
  induction cols as [|col cols IH]; intros keyColumns restColumns; simpl.
  - by rewrite !app_nil_r.
  - rewrite !filter_cons. destruct (pkCols !! Column_Name col) as [c|] eqn:Hl.
    + rewrite decide_True by eauto. rewrite decide_False by (intros H; apply H; eauto).
      rewrite IH, <- app_assoc. done.
    + rewrite decide_False by (by intros [? ?]).
      rewrite decide_True by (by intros [? ?]).
      rewrite IH, <- app_assoc. done.
Qed.

Lemma filter_partition_Permutation {A} (P : A → Prop) `{!∀ x, Decision (P x)} l :
  filter P l ++ filter (λ x, ¬ P x) l ≡ₚ l.
Proof.
  induction l as [|x l IH]; simpl; [done|].
  rewrite !filter_cons. destruct (decide (P x)).
  - rewrite decide_False by tauto. simpl. by rewrite IH.
  - rewrite decide_True by done. rewrite <- Permutation_middle. by rewrite IH.
Qed.

(** ** Rows into columns and constraints *)

Lemma scanColumn_formatted r : scanColumn r = Ok (formattedColumn r).
Proof.
  unfold scanColumn, formattedColumn, typeFormattingRule, case_eval, dataTypeCase.
  cbn.
  destruct (String.eqb_spec (data_type r) "USER-DEFINED") as [H1|H1];
    [by rewrite decide_True by done|rewrite (decide_False _ _ H1)].
  destruct (String.eqb_spec (data_type r) "numeric") as [H2|H2].
  { rewrite decide_True by done. cbn.
    by destruct (numeric_precision r), (numeric_scale r). }
  rewrite (decide_False _ _ H2).
  destruct (String.eqb_spec (data_type r) "character") as [H3|H3].
  { rewrite decide_True by done. cbn.
    by destruct (character_maximum_length r). }
  rewrite (decide_False _ _ H3).
  destruct (String.eqb_spec (data_type r) "timestamp with time zone") as [H4|H4].
  { by rewrite decide_True by done. }
  by rewrite (decide_False _ _ H4).
Qed.

Lemma columnRows_map rows cols :
  columnRows rows cols = Ok (cols ++ (formattedColumn <$> rows)).
Proof.
  revert cols. induction rows as [|row rows IH]; intros cols; simpl.
  - by rewrite app_nil_r.
  - rewrite scanColumn_formatted. simpl. by rewrite IH, <- app_assoc.
Qed.

Lemma constraintRows_mapM rows cols :
  constraintRows rows cols =
  match mapM id rows with
  | Ok cols' => Ok (cols ++ cols')
  | Err e => Err e
  end.
Proof.
  revert cols. induction rows as [|row rows IH]; intros cols; simpl.
  - by rewrite app_nil_r.
  - destruct row as [col|e]; simpl; [|done].
    rewrite IH. destruct (mapM id rows); simpl; [|done].
    by rewrite <- app_assoc.
Qed.

(** ** One table *)

Lemma assembleTable_Ok db schema table table' :
  assembleTable db schema table = Ok table' →
  ∃ cols constraints,
    getColumns db schema (Table_Name table) = Ok cols ∧
    getConstraints db schema (Table_Name table) = Ok constraints ∧
    Forall (λ c, ConstraintType c = "PRIMARY KEY" ∨ ConstraintType c = "FOREIGN KEY")
      constraints ∧
    table' =
      {| Table_Name := Table_Name table;
         Table_Description := Table_Description table;
         Table_KeyColumns :=
           filter (λ col, Column_Name col ∈ primaryKeyNames constraints) cols;
         Table_Columns :=
           filter (λ col, Column_Name col ∉ primaryKeyNames constraints) cols;
         Table_ForeignKeys := omap foreignKeyOf constraints |}.
Proof.
  unfold assembleTable.
  destruct (getColumns _ _ _) as [cols|e]; simpl; [|discriminate].
  destruct (getConstraints _ _ _) as [constraints|e]; simpl; [|discriminate].
  destruct (classifyAll _ _ constraints) as [[pkCols fkCols]|e] eqn:Hc;
    simpl; [|discriminate].
  apply classifyAll_Ok in Hc as (Hkinds & Hdom & ->).
  rewrite partitionColumns_filter. simpl. intros [= <-].
  exists cols, constraints. repeat split; [done|]. f_equal.
  - apply list_filter_iff. intros col. rewrite Hdom, lookup_empty.
    split; [intros [[? [=]]|?]; done | auto].
  - apply list_filter_iff. intros col. rewrite Hdom, lookup_empty.
    split; [intros Hn ?; apply Hn; auto | intros Hn [[? [=]]|?]; done].
Qed.

Lemma assembleTable_Err db schema table cols pre c post st e :
  getColumns db schema (Table_Name table) = Ok cols →
  getConstraints db schema (Table_Name table) = Ok (pre ++ c :: post) →
  classifyAll (Table_Name table) (∅, []) pre = Ok st →
  classify (Table_Name table) st c = Err e →
  assembleTable db schema table = Err e.
Proof.
  intros Hcols Hcons Hpre Hc. unfold assembleTable.
  rewrite Hcols, Hcons. simpl.
  by rewrite (classifyAll_Err _ _ _ _ _ _ _ Hpre Hc).
Qed.

(** ** The whole run *)

Lemma getFullSchema_Ok db schema config s :
  getFullSchema db schema config = Ok s →
  ∃ tables enums,
    getTableNames db schema (Exclude config) = Ok tables ∧
    Forall2 (λ table table', assembleTable db schema table = Ok table')
      tables (Tables s) ∧
    getEnums db schema = Ok enums ∧ Enums s = enums.
Proof.
  rewrite getFullSchema_unfold.
  destruct (getTableNames _ _ _) as [tables|e]; simpl; [|discriminate].
  destruct (mapM _ tables) as [tables'|e] eqn:Hm; simpl; [|discriminate].
  destruct (getEnums _ _) as [enums|e]; simpl; [|discriminate].
  intros [= <-]. exists tables, enums. apply mapM_Ok in Hm. done.
Qed.

Lemma getFullSchema_Err db schema config done table rest e :
  getTableNames db schema (Exclude config) = Ok (done ++ table :: rest) →
  Forall (λ t, is_Ok (assembleTable db schema t)) done →
  assembleTable db schema table = Err e →
  getFullSchema db schema config = Err e.
Proof.
  intros Htables Hdone He. rewrite getFullSchema_unfold, Htables. simpl.
  by rewrite (mapM_Err _ _ _ _ _ Hdone He).
Qed.

(** * The claims *)

(** ** Table list and exclusion *)

(** C6. [getTableNames] drops a table exactly when its name is equal, as
    a string, to an entry of the exclusion list: the result is the
    query's rows filtered by "name not in the list", in the query's
    order, and a name returned by the query is missing from the result if
    and only if it is an entry of the list. *)
Theorem getTableNames_exact_exclusion db schema exclude rows :
  pg_statio_user_tables db schema = Ok rows →
  ∃ tables,
    getTableNames db schema exclude = Ok tables ∧
    tables = scanTable <$> filter (λ row, row.1 ∉ exclude) rows ∧
    sublist tables (scanTable <$> rows) ∧
    ∀ name, name ∈ rows.*1 →
      (name ∉ Table_Name <$> tables ↔ ∃ exc, exc ∈ exclude ∧ exc = name).
Proof.
  intros Hrows. eexists. unfold getTableNames. rewrite Hrows. simpl.
  rewrite tableRows_filter. simpl. split; [done|]. split; [done|]. split.
  - apply fmap_sublist, sublist_filter.
  - intros name Hname. rewrite <- list_fmap_compose. split.
    + intros Hnot. exists name. split; [|done].
      destruct (decide (name ∈ exclude)) as [|Hnin]; [done|].
      exfalso. apply Hnot. apply list_elem_of_fmap in Hname as (row & -> & Hrow).
      apply list_elem_of_fmap. exists row. split; [done|].
      by apply list_elem_of_filter.
    + intros (exc & Hexc & ->) (row & -> & [Hnin _]%list_elem_of_filter)%list_elem_of_fmap.
      by apply Hnin.
Qed.

Lemma getTableNames_exact_exclusion_witness :
  ∃ tables,
    getTableNames (sampleDb []) "public" ["logs"; "Users"; "order"] = Ok tables ∧
    tables = scanTable <$> filter (λ row, row.1 ∉ ["logs"; "Users"; "order"])
               [("users", Some "People"); ("logs", None); ("orders", None);
                ("logs_archive", None)] ∧
    sublist tables
      (scanTable <$> [("users", Some "People"); ("logs", None); ("orders", None);
                      ("logs_archive", None)]) ∧
    ∀ name, name ∈ [("users", Some "People"); ("logs", None); ("orders", None);
                    ("logs_archive", @None string)].*1 →
      (name ∉ Table_Name <$> tables ↔
       ∃ exc, exc ∈ ["logs"; "Users"; "order"] ∧ exc = name).
Proof.
  apply (getTableNames_exact_exclusion (sampleDb []) "public"
           ["logs"; "Users"; "order"]).
  reflexivity.
Defined.

(** Neither a prefix, nor a longer name, nor another letter case excludes. *)
Example getTableNames_near_misses :
  Table_Name <$> tableRows ["logs"; "Users"; "order"]
    [("users", None); ("logs", None); ("orders", None); ("logs_archive", None)] []
  = ["users"; "orders"; "logs_archive"].
Proof. reflexivity. Qed.

(** ** Column types *)

(** C3. Every row of the column query scans into the column the
    type-formatting rule describes: a USER-DEFINED type shows its
    [udt_name] and is flagged custom; numeric shows as
    Number(precision,scale); character as Char(length); timestamp with
    time zone as timestamp; any other type under its own name; only
    USER-DEFINED is flagged custom.  [getColumns] returns these columns
    in the order of the rows. *)
Theorem getColumns_type_formatting db schema tableName :
  (∀ r, scanColumn r = Ok (formattedColumn r)) ∧
  getColumns db schema tableName =
    match information_schema_columns db schema tableName with
    | Ok rows => Ok (formattedColumn <$> rows)
    | Err e => Err e
    end.
Proof.
  split; [apply scanColumn_formatted|].
  unfold getColumns. destruct (information_schema_columns _ _ _); simpl; [|done].
  by rewrite columnRows_map.
Qed.

Example type_formatting_samples :
  Column_DataType <$> (formattedColumn <$> usersColumns) =
    ["integer"; "Char(20)"; "role"; "Number(10,2)"; "timestamp"] ∧
  Column_CustomType <$> (formattedColumn <$> usersColumns) =
    [false; false; true; false; false].
Proof. split; reflexivity. Qed.

(** ** Key and non-key columns *)

(** C1. In a schema returned by [getFullSchema], the key columns of a
    table are the fetched columns whose name is a primary-key column
    name, the other columns are the remaining ones, each in the order
    fetched; together they are a rearrangement of the fetched list, and no
    column is in both. *)
Theorem key_partition db schema config s i table :
  getFullSchema db schema config = Ok s →
  Tables s !! i = Some table →
  ∃ cols constraints,
    getColumns db schema (Table_Name table) = Ok cols ∧
    getConstraints db schema (Table_Name table) = Ok constraints ∧
    Table_KeyColumns table =
      filter (λ col, Column_Name col ∈ primaryKeyNames constraints) cols ∧
    Table_Columns table =
      filter (λ col, Column_Name col ∉ primaryKeyNames constraints) cols ∧
    Table_KeyColumns table ++ Table_Columns table ≡ₚ cols ∧
    sublist (Table_KeyColumns table) cols ∧
    sublist (Table_Columns table) cols ∧
    ∀ col, ¬ (col ∈ Table_KeyColumns table ∧ col ∈ Table_Columns table).
Proof.
  intros (tables & enums & _ & Hall & _)%getFullSchema_Ok Hi.
  destruct (Forall2_lookup_r _ _ _ _ _ Hall Hi) as (table0 & _ & Hasm).
  apply assembleTable_Ok in Hasm as (cols & constraints & Hcols & Hcons & _ & ->).
  simpl. exists cols, constraints. repeat split; try done.
  - apply filter_partition_Permutation.
  - apply sublist_filter.
  - apply sublist_filter.
  - intros col [[Hin _]%list_elem_of_filter [Hnin _]%list_elem_of_filter]. done.
Qed.

Lemma key_partition_witness :
  ∃ cols constraints,
    getColumns (sampleDb [ordersKey; ordersUser; ordersLog]) "public"
      (Table_Name sampleOrders) = Ok cols ∧
    getConstraints (sampleDb [ordersKey; ordersUser; ordersLog]) "public"
      (Table_Name sampleOrders) = Ok constraints ∧
    Table_KeyColumns sampleOrders =
      filter (λ col, Column_Name col ∈ primaryKeyNames constraints) cols ∧
    Table_Columns sampleOrders =
      filter (λ col, Column_Name col ∉ primaryKeyNames constraints) cols ∧
    Table_KeyColumns sampleOrders ++ Table_Columns sampleOrders ≡ₚ cols ∧
    sublist (Table_KeyColumns sampleOrders) cols ∧
    sublist (Table_Columns sampleOrders) cols ∧
    ∀ col, ¬ (col ∈ Table_KeyColumns sampleOrders ∧ col ∈ Table_Columns sampleOrders).
Proof.
  apply (key_partition (sampleDb [ordersKey; ordersUser; ordersLog]) "public"
           sampleConfig sampleSchema 1 sampleOrders).
  - vm_compute. reflexivity.
  - reflexivity.
Defined.

Example key_partition_sample :
  Column_Name <$> Table_KeyColumns sampleOrders = ["id"; "line"] ∧
  Column_Name <$> Table_Columns sampleOrders = ["user_id"; "log_id"].
Proof. split; reflexivity. Qed.

(** ** The constraint scan inside a run *)

Section Scan.
(** The scan has reached constraint [c] of [table]: the tables before
    it were assembled, the table's two queries answered, and the
    constraints before [c] left the key set [pkCols] and the foreign
    keys [fkCols]. *)
Variables (db : Wrapper) (schema : string) (config : Config).
Variables (done rest : list Table) (table : Table).
Variables (cols : list ColumnDefinition).
Variables (pre post : list ConstraintDefinition) (c : ConstraintDefinition).
Variables (pkCols : gmap string ConstraintDefinition).
Variables (fkCols : list ForeignKeyDefinition).

Hypothesis Htables :
  getTableNames db schema (Exclude config) = Ok (done ++ table :: rest).
Hypothesis Hdone : Forall (λ t, is_Ok (assembleTable db schema t)) done.
Hypothesis Hcols : getColumns db schema (Table_Name table) = Ok cols.
Hypothesis Hcons :
  getConstraints db schema (Table_Name table) = Ok (pre ++ c :: post).
Hypothesis Hpre :
  classifyAll (Table_Name table) (∅, []) pre = Ok (pkCols, fkCols).

Lemma scan_fails e :
  classify (Table_Name table) (pkCols, fkCols) c = Err e →
  getFullSchema db schema config = Err e.
Proof using All.
  intros Hc. apply (getFullSchema_Err _ _ _ _ _ _ _ Htables Hdone).
  exact (assembleTable_Err _ _ _ _ _ _ _ _ _ Hcols Hcons Hpre Hc).
Qed.

Lemma scan_foreign_keys s :
  getFullSchema db schema config = Ok s →
  ∃ table', Tables s !! length done = Some table' ∧
    Table_ForeignKeys table' = fkCols ++ omap foreignKeyOf (c :: post).
Proof using All.
  intros (tables & enums & Ht & Hall & _)%getFullSchema_Ok.
  rewrite Htables in Ht. injection Ht as <-.
  apply Forall2_app_inv_l in Hall as (done' & rest' & Hd & Hr & Hs).
  apply Forall2_cons_inv_l in Hr as (table' & rest'' & Hasm & _ & ->).
  exists table'. split.
  - rewrite Hs, (Forall2_length _ _ _ Hd). by apply list_lookup_middle.
  - apply assembleTable_Ok in Hasm as (cols' & cs & _ & Hcs & _ & ->).
    rewrite Hcons in Hcs. injection Hcs as <-. simpl.
    apply classifyAll_Ok in Hpre as (_ & _ & ->). simpl.
    by rewrite omap_app.
Qed.

(** C2. A FOREIGN KEY constraint reached by the scan: with one local
    column, owned by the table, and one foreign column it adds exactly
    one foreign key, carrying the local column name, the constraint
    name and the foreign table and column, and a schema that is
    returned holds it at that place of the table's list; with any other
    number of local or of foreign columns the run returns the
    cardinality error naming the constraint, and no schema. *)
Theorem foreign_key_constraint :
  ConstraintType c = "FOREIGN KEY" →
  (∀ localCol foreignCol,
     LocalColumns c = [localCol] → ForeignColumns c = [foreignCol] →
     Ident_Table localCol = Table_Name table →
     let fk := {| FK_Column := Ident_Column localCol;
                  FK_Name := ConstraintName c;
                  FK_RefTable := Ident_Table foreignCol;
                  FK_RefColumn := Ident_Column foreignCol |} in
     classify (Table_Name table) (pkCols, fkCols) c = Ok (pkCols, fkCols ++ [fk]) ∧
     ∀ s, getFullSchema db schema config = Ok s →
       ∃ table', Tables s !! length done = Some table' ∧
         Table_ForeignKeys table' = fkCols ++ fk :: omap foreignKeyOf post) ∧
  (length (LocalColumns c) ≠ 1 ∨ length (ForeignColumns c) ≠ 1 →
   getFullSchema db schema config =
     Err ("foreign keys should have 1 local, 1 foreign column. See "
            +:+ ConstraintName c)).
Proof using All.
  intros Hfk. split.
  - intros localCol foreignCol Hl Hf Htab fk. split.
    + unfold classify. rewrite Hfk, Hl, Hf. simpl.
      by rewrite Htab, String.eqb_refl.
    + intros s (table' & Hi & Hfks)%scan_foreign_keys.
      exists table'. split; [done|]. rewrite Hfks. simpl.
      unfold foreignKeyOf at 1. by rewrite Hfk, Hl, Hf.
  - intros Hcard. apply scan_fails. unfold classify. rewrite Hfk. simpl.
    destruct Hcard as [Hn|Hn]; apply Nat.eqb_neq in Hn; rewrite Hn; simpl;
      [done | by rewrite orb_true_r].
Qed.

(** C4, as the code has it.  A PRIMARY KEY constraint reached by the
    scan with a local column of another table makes the run return the
    error naming the current table, the constraint and the other table;
    of several such columns it is the first, the one all of whose
    predecessors in the constraint are owned by the current table.  A
    FOREIGN KEY constraint reached by the scan with one local column, of
    another table, and one foreign column makes the run return the
    error naming the current table, the constraint and that other
    table.  No schema is returned. *)
Theorem constraint_of_other_table :
  (ConstraintType c = "PRIMARY KEY" →
   Exists (λ column, Ident_Table column ≠ Table_Name table) (LocalColumns c) →
   ∃ owned column others,
     LocalColumns c = owned ++ column :: others ∧
     Forall (λ col, Ident_Table col = Table_Name table) owned ∧
     Ident_Table column ≠ Table_Name table ∧
     getFullSchema db schema config =
       Err ("Table " +:+ Table_Name table +:+ " had primary key "
              +:+ ConstraintName c +:+ " in " +:+ Ident_Table column)) ∧
  (ConstraintType c = "FOREIGN KEY" →
   ∀ localCol,
     LocalColumns c = [localCol] → length (ForeignColumns c) = 1 →
     Ident_Table localCol ≠ Table_Name table →
     getFullSchema db schema config =
       Err ("Table " +:+ Table_Name table +:+ " had foreign key "
              +:+ ConstraintName c +:+ " in " +:+ Ident_Table localCol)).
Proof using All.
  split.
  - intros Hpk Hex.
    destruct (primaryKeyColumns_Err_first (Table_Name table) c _ pkCols Hex)
      as (owned & column & others & Hcols' & Hown & Hne & Herr).
    exists owned, column, others. split; [done|]. split; [done|]. split; [done|].
    apply scan_fails. unfold classify. rewrite Hpk. simpl. by rewrite Herr.
  - intros Hfk localCol Hl Hf Hne. apply scan_fails.
    unfold classify. rewrite Hfk, Hl, Hf. simpl.
    destruct (ForeignColumns c) as [|foreignCol [|]]; try discriminate. simpl.
    apply String.eqb_neq in Hne. by rewrite Hne.
Qed.

(** C5. A constraint reached by the scan whose kind is neither
    PRIMARY KEY nor FOREIGN KEY makes the run return the error naming
    that kind; and the scan gets past a constraint only if its kind is
    one of the two. *)
Theorem unknown_constraint_kind :
  (ConstraintType c ≠ "PRIMARY KEY" → ConstraintType c ≠ "FOREIGN KEY" →
   getFullSchema db schema config =
     Err ("Unknown Constraint: " +:+ ConstraintType c)) ∧
  (is_Ok (classify (Table_Name table) (pkCols, fkCols) c) →
   ConstraintType c = "PRIMARY KEY" ∨ ConstraintType c = "FOREIGN KEY").
Proof using All.
  split.
  - intros Hpk%String.eqb_neq Hfk%String.eqb_neq. apply scan_fails.
    unfold classify. by rewrite Hpk, Hfk.
  - intros [[pk fk] Hok]. by apply classify_Ok in Hok as [? _].
Qed.
End Scan.

(** The scan of the sample catalog reaches the second constraint of
    [orders] whatever that constraint and those after it are. *)
Lemma sample_tables ordersConstraints :
  getTableNames (sampleDb ordersConstraints) "public" (Exclude sampleConfig) =
  Ok ([usersStub] ++ ordersStub :: [archiveStub]).
Proof. reflexivity. Qed.

Lemma sample_done ordersConstraints :
  Forall (λ t, is_Ok (assembleTable (sampleDb ordersConstraints) "public" t))
    [usersStub].
Proof. repeat constructor. eexists. vm_compute. reflexivity. Qed.

Lemma sample_columns ordersConstraints :
  getColumns (sampleDb ordersConstraints) "public" (Table_Name ordersStub) =
  Ok (formattedColumn <$> ordersColumns).
Proof. vm_compute. reflexivity. Qed.

Lemma mapM_id_Ok {A} (l : list A) : mapM id (Ok <$> l) = Ok l.
Proof. induction l as [|a l IH]; csimpl; [done|]. by rewrite IH. Qed.

Lemma sample_constraints c post :
  getConstraints (sampleDb ([ordersKey] ++ c :: post)) "public"
    (Table_Name ordersStub) = Ok ([ordersKey] ++ c :: post).
Proof.
  unfold getConstraints. simpl. rewrite constraintRows_mapM.
  change (mapM id (Ok ordersKey :: Ok c :: (Ok <$> post)))
    with (mapM id (Ok <$> ordersKey :: c :: post)).
  by rewrite mapM_id_Ok.
Qed.

Lemma sample_key_scanned :
  classifyAll (Table_Name ordersStub) (∅, []) [ordersKey] = Ok (ordersKeySet, []).
Proof. vm_compute. reflexivity. Qed.

Lemma foreign_key_constraint_witness :
  (classify "orders" (ordersKeySet, []) ordersUser =
     Ok (ordersKeySet,
         [ {| FK_Column := "user_id"; FK_Name := "orders_user_fk";
              FK_RefTable := "users"; FK_RefColumn := "id" |} ]) ∧
   ∀ s, getFullSchema (sampleDb [ordersKey; ordersUser; ordersLog]) "public"
          sampleConfig = Ok s →
     ∃ table', Tables s !! 1%nat = Some table' ∧
       Table_ForeignKeys table' =
         {| FK_Column := "user_id"; FK_Name := "orders_user_fk";
            FK_RefTable := "users"; FK_RefColumn := "id" |}
         :: omap foreignKeyOf [ordersLog]) ∧
  getFullSchema (sampleDb [ordersKey; ordersPair; ordersLog]) "public" sampleConfig =
    Err "foreign keys should have 1 local, 1 foreign column. See orders_pair_fk".
Proof.
  split.
  - apply (proj1 (foreign_key_constraint
                    (sampleDb [ordersKey; ordersUser; ordersLog]) "public"
                    sampleConfig [usersStub] [archiveStub] ordersStub
                    (formattedColumn <$> ordersColumns)
                    [ordersKey] [ordersLog] ordersUser ordersKeySet []
                    (sample_tables _) (sample_done _) (sample_columns _)
                    (sample_constraints ordersUser [ordersLog])
                    sample_key_scanned eq_refl)
             (ident "orders" "user_id") (ident "users" "id")
             eq_refl eq_refl eq_refl).
  - apply (proj2 (foreign_key_constraint
                    (sampleDb [ordersKey; ordersPair; ordersLog]) "public"
                    sampleConfig [usersStub] [archiveStub] ordersStub
                    (formattedColumn <$> ordersColumns)
                    [ordersKey] [ordersLog] ordersPair ordersKeySet []
                    (sample_tables _) (sample_done _) (sample_columns _)
                    (sample_constraints ordersPair [ordersLog])
                    sample_key_scanned eq_refl)).
    left. simpl. lia.
Defined.

(** C4 as stated fails: a FOREIGN KEY constraint whose single local
    column is owned by another table, reached by the scan, is answered
    with the cardinality error when it has no foreign column, not with
    the error about the other table. *)
Lemma constraint_of_other_table_counterexample :
  ConstraintType ordersStray = "FOREIGN KEY" ∧
  LocalColumns ordersStray = [ident "users" "id"] ∧
  Ident_Table (ident "users" "id") ≠ Table_Name ordersStub ∧
  getFullSchema (sampleDb [ordersKey; ordersStray]) "public" sampleConfig =
    Err "foreign keys should have 1 local, 1 foreign column. See orders_stray_fk" ∧
  getFullSchema (sampleDb [ordersKey; ordersStray]) "public" sampleConfig ≠
    Err "Table orders had foreign key orders_stray_fk in users".
Proof.
  split; [reflexivity|]. split; [reflexivity|]. split; [discriminate|].
  assert (getFullSchema (sampleDb [ordersKey; ordersStray]) "public" sampleConfig =
    Err "foreign keys should have 1 local, 1 foreign column. See orders_stray_fk")
    as H by (vm_compute; reflexivity).
  split; [exact H|]. rewrite H. discriminate.
Qed.

Lemma constraint_of_other_table_witness :
  (∃ owned column others,
     LocalColumns ordersKeyElsewhere = owned ++ column :: others ∧
     Forall (λ col, Ident_Table col = "orders") owned ∧
     Ident_Table column ≠ "orders" ∧
     getFullSchema (sampleDb [ordersKey; ordersKeyElsewhere]) "public" sampleConfig =
       Err ("Table orders had primary key orders_wide_pkey in "
              +:+ Ident_Table column)) ∧
  getFullSchema (sampleDb [ordersKey; ordersElsewhere]) "public" sampleConfig =
    Err "Table orders had foreign key orders_elsewhere_fk in users".
Proof.
  split.
  - apply (proj1 (constraint_of_other_table
                    (sampleDb [ordersKey; ordersKeyElsewhere]) "public"
                    sampleConfig [usersStub] [archiveStub] ordersStub
                    (formattedColumn <$> ordersColumns)
                    [ordersKey] [] ordersKeyElsewhere ordersKeySet []
                    (sample_tables _) (sample_done _) (sample_columns _)
                    (sample_constraints ordersKeyElsewhere [])
                    sample_key_scanned) eq_refl).
    apply Exists_cons_tl, Exists_cons_hd. discriminate.
  - apply (proj2 (constraint_of_other_table
                    (sampleDb [ordersKey; ordersElsewhere]) "public"
                    sampleConfig [usersStub] [archiveStub] ordersStub
                    (formattedColumn <$> ordersColumns)
                    [ordersKey] [] ordersElsewhere ordersKeySet []
                    (sample_tables _) (sample_done _) (sample_columns _)
                    (sample_constraints ordersElsewhere [])
                    sample_key_scanned) eq_refl (ident "users" "id")
             eq_refl eq_refl).
    discriminate.
Defined.

Example constraint_of_other_table_first :
  getFullSchema (sampleDb [ordersKey; ordersKeyTwoElsewhere]) "public" sampleConfig =
    Err "Table orders had primary key orders_wider_pkey in users".
Proof. vm_compute. reflexivity. Qed.

Lemma unknown_constraint_kind_witness :
  getFullSchema (sampleDb [ordersKey; ordersCheck; ordersUser]) "public"
    sampleConfig = Err "Unknown Constraint: CHECK".
Proof.
  apply (proj1 (unknown_constraint_kind
                  (sampleDb [ordersKey; ordersCheck; ordersUser]) "public"
                  sampleConfig [usersStub] [archiveStub] ordersStub
                  (formattedColumn <$> ordersColumns)
                  [ordersKey] [ordersUser] ordersCheck ordersKeySet []
                  (sample_tables _) (sample_done _) (sample_columns _)
                  (sample_constraints ordersCheck [ordersUser])
                  sample_key_scanned)); discriminate.
Defined.

(** ** Tables without a primary key *)

Lemma filter_all {A} (P : A → Prop) `{!∀ x, Decision (P x)} (l : list A) :
  (∀ x, P x) → filter P l = l.
Proof.
  intros HP. induction l as [|x l IH]; [done|].
  by rewrite filter_cons_True, IH.
Qed.

Lemma filter_none {A} (P : A → Prop) `{!∀ x, Decision (P x)} (l : list A) :
  (∀ x, ¬ P x) → filter P l = [].
Proof.
  intros HP. induction l as [|x l IH]; [done|].
  by rewrite filter_cons_False.
Qed.

Lemma primaryKeyNames_none constraints :
  Forall (λ c, ConstraintType c ≠ "PRIMARY KEY") constraints →
  primaryKeyNames constraints = [].
Proof.
  unfold primaryKeyNames. induction 1 as [|c constraints Hc _ IH]; csimpl; [done|].
  apply String.eqb_neq in Hc. by rewrite Hc, IH.
Qed.

Lemma classifyAll_simple tableName pkCols fkCols constraints :
  Forall (simpleForeignKey tableName) constraints →
  classifyAll tableName (pkCols, fkCols) constraints =
  Ok (pkCols, fkCols ++ omap foreignKeyOf constraints).
Proof.
  intros Hall. revert fkCols.
  induction Hall as [|c constraints (Hfk & l & f & Hl & Hf & Ht) _ IH];
    intros fkCols.
  - simpl. by rewrite app_nil_r.
  - cbn [classifyAll]. unfold classify. rewrite Hfk, Hl, Hf. simpl.
    rewrite Ht, String.eqb_refl. simpl. rewrite IH.
    unfold foreignKeyOf at 2. rewrite Hfk, Hl, Hf. simpl.
    by rewrite <- app_assoc.
Qed.

(** C9, as the code has it.  For a table whose constraint list holds no
    PRIMARY KEY constraint, the missing key is no error of its own:
    whenever the table is assembled it has no key columns and all its
    fetched columns, in the order fetched, as other columns; and it is
    assembled whenever each of its constraints is a FOREIGN KEY with one
    local column, owned by the table, and one foreign column. *)
Theorem table_without_primary_key db schema table cols constraints :
  getColumns db schema (Table_Name table) = Ok cols →
  getConstraints db schema (Table_Name table) = Ok constraints →
  Forall (λ c, ConstraintType c ≠ "PRIMARY KEY") constraints →
  (∀ table', assembleTable db schema table = Ok table' →
     Table_KeyColumns table' = [] ∧ Table_Columns table' = cols) ∧
  (Forall (simpleForeignKey (Table_Name table)) constraints →
   assembleTable db schema table =
     Ok {| Table_Name := Table_Name table;
           Table_Description := Table_Description table;
           Table_KeyColumns := [];
           Table_Columns := cols;
           Table_ForeignKeys := omap foreignKeyOf constraints |}).
Proof.
  intros Hcols Hcons Hnone.
  assert (∀ table', assembleTable db schema table = Ok table' →
            Table_KeyColumns table' = [] ∧ Table_Columns table' = cols) as Hshape.
  { intros table' (cols' & cs & Hc' & Hcs' & _ & ->)%assembleTable_Ok.
    rewrite Hcols in Hc'. injection Hc' as <-.
    rewrite Hcons in Hcs'. injection Hcs' as <-.
    simpl. rewrite (primaryKeyNames_none _ Hnone). split.
    - apply filter_none. intros col Hin. by apply elem_of_nil in Hin.
    - apply filter_all. intros col Hin. by apply elem_of_nil in Hin. }
  split; [exact Hshape|].
  intros Hsimple. unfold assembleTable. rewrite Hcols, Hcons. simpl.
  rewrite (classifyAll_simple _ _ _ _ Hsimple). simpl.
  rewrite partitionColumns_filter. simpl. f_equal. f_equal.
  - apply filter_none. intros col [? Hl]. by rewrite lookup_empty in Hl.
  - apply filter_all. intros col [? Hl]. by rewrite lookup_empty in Hl.
Qed.

Lemma table_without_primary_key_witness :
  assembleTable (sampleDb [ordersUser; ordersLog]) "public" ordersStub =
    Ok {| Table_Name := "orders";
          Table_Description := "";
          Table_KeyColumns := [];
          Table_Columns := formattedColumn <$> ordersColumns;
          Table_ForeignKeys := omap foreignKeyOf [ordersUser; ordersLog] |}.
Proof.
  apply (proj2 (table_without_primary_key
                  (sampleDb [ordersUser; ordersLog]) "public" ordersStub
                  (formattedColumn <$> ordersColumns) [ordersUser; ordersLog]
                  (sample_columns _) eq_refl
                  ltac:(repeat constructor; discriminate))).
  repeat constructor; eexists _, _; repeat split; reflexivity.
Defined.

(** C9 as stated fails: [orders] with a two-column FOREIGN KEY as its
    only constraint has no PRIMARY KEY constraint, and the run returns an
    error instead of the table. *)
Lemma table_without_primary_key_counterexample :
  getConstraints (sampleDb [ordersPair]) "public" "orders" = Ok [ordersPair] ∧
  Forall (λ c, ConstraintType c ≠ "PRIMARY KEY") [ordersPair] ∧
  assembleTable (sampleDb [ordersPair]) "public" ordersStub =
    Err "foreign keys should have 1 local, 1 foreign column. See orders_pair_fk" ∧
  getFullSchema (sampleDb [ordersPair]) "public" sampleConfig =
    Err "foreign keys should have 1 local, 1 foreign column. See orders_pair_fk".
Proof.
  split; [reflexivity|]. split; [repeat constructor; discriminate|].
  split; vm_compute; reflexivity.
Qed.

(** ** Order and determinism *)

Lemma getTableNames_sameCatalog schema db db' exclude :
  sameCatalog schema db db' →
  getTableNames db' schema exclude = getTableNames db schema exclude.
Proof. intros (Ht & _). unfold getTableNames. by rewrite Ht. Qed.

Lemma assembleTable_sameCatalog schema db db' table :
  sameCatalog schema db db' →
  assembleTable db' schema table = assembleTable db schema table.
Proof.
  intros (_ & Hc & Hk & _).
  unfold assembleTable, getColumns, getConstraints. by rewrite Hc, Hk.
Qed.

Lemma mapM_ext {A B} (f g : A → result B) l :
  (∀ a, f a = g a) → mapM f l = mapM g l.
Proof.
  intros Hfg. induction l as [|a l IH]; simpl; [done|]. by rewrite Hfg, IH.
Qed.

Lemma assembled_names db schema tables tables' :
  Forall2 (λ table table', assembleTable db schema table = Ok table') tables tables' →
  Table_Name <$> tables' = Table_Name <$> tables.
Proof.
  induction 1 as [|table table' tables tables' Hasm _ IH]; csimpl; [done|].
  apply assembleTable_Ok in Hasm as (? & ? & _ & _ & _ & ->). simpl.
  by rewrite IH.
Qed.

Lemma assembled_shape db schema tables tables' :
  Forall2 (λ table table', assembleTable db schema table = Ok table') tables tables' →
  Forall (λ table,
    ∃ cols constraints,
      getColumns db schema (Table_Name table) = Ok cols ∧
      getConstraints db schema (Table_Name table) = Ok constraints ∧
      Table_KeyColumns table =
        filter (λ col, Column_Name col ∈ primaryKeyNames constraints) cols ∧
      Table_Columns table =
        filter (λ col, Column_Name col ∉ primaryKeyNames constraints) cols ∧
      Table_ForeignKeys table = omap foreignKeyOf constraints) tables'.
Proof.
  induction 1 as [|table table' tables tables' Hasm _ IH]; constructor; [|done].
  apply assembleTable_Ok in Hasm as (cols & cs & Hc & Hk & _ & ->).
  simpl. by exists cols, cs.
Qed.

(** C8. The assembler sorts nothing.  In a returned schema the table
    names are the names of the table-list rows that are not excluded, in
    the query's order; every table has the two stable filters of its
    fetched columns as key and other columns, and one foreign key for
    each FOREIGN KEY constraint in the order of the constraint list; the
    enums are the rows of the enum query in its order.  Two catalogs
    that answer the four queries alike give the same result. *)
Theorem assembly_keeps_order db schema config :
  (∀ s, getFullSchema db schema config = Ok s →
     ∃ rows types,
       pg_statio_user_tables db schema = Ok rows ∧
       pg_enum_types db schema = Ok types ∧
       Table_Name <$> Tables s =
         (filter (λ row, row.1 ∉ Exclude config) rows).*1 ∧
       Forall (λ table,
         ∃ cols constraints,
           getColumns db schema (Table_Name table) = Ok cols ∧
           getConstraints db schema (Table_Name table) = Ok constraints ∧
           Table_KeyColumns table =
             filter (λ col, Column_Name col ∈ primaryKeyNames constraints) cols ∧
           Table_Columns table =
             filter (λ col, Column_Name col ∉ primaryKeyNames constraints) cols ∧
           Table_ForeignKeys table = omap foreignKeyOf constraints) (Tables s) ∧
       Enums s = scanEnum <$> enumQuery types) ∧
  (∀ db', sameCatalog schema db db' →
     getFullSchema db' schema config = getFullSchema db schema config).
Proof.
  split.
  - intros s (tables & enums & Ht & Hall & He & Henums)%getFullSchema_Ok.
    unfold getTableNames in Ht.
    destruct (pg_statio_user_tables db schema) as [rows|e] eqn:Hrows;
      simpl in Ht; [|discriminate].
    injection Ht as <-. rewrite tableRows_filter in Hall. simpl in Hall.
    unfold getEnums in He.
    destruct (pg_enum_types db schema) as [types|e] eqn:Htypes; [|discriminate].
    injection He as <-. rewrite enumRows_map in Henums. simpl in Henums.
    exists rows, types. split; [done|]. split; [done|]. split; [|split; [|done]].
    + rewrite (assembled_names _ _ _ _ Hall), <- list_fmap_compose. done.
    + exact (assembled_shape _ _ _ _ Hall).
  - intros db' Hsame. rewrite !getFullSchema_unfold.
    rewrite (getTableNames_sameCatalog _ _ _ _ Hsame).
    destruct (getTableNames db schema (Exclude config)) as [tables|e]; simpl; [|done].
    rewrite (mapM_ext _ (assembleTable db schema))
      by (intros t; by apply assembleTable_sameCatalog).
    destruct (mapM _ tables); simpl; [|done].
    unfold getEnums. destruct Hsame as (_ & _ & _ & <-). done.
Qed.

Lemma assembly_keeps_order_witness :
  (∃ rows types,
    pg_statio_user_tables (sampleDb [ordersKey; ordersUser; ordersLog]) "public"
      = Ok rows ∧
    pg_enum_types (sampleDb [ordersKey; ordersUser; ordersLog]) "public"
      = Ok types ∧
    Table_Name <$> Tables sampleSchema =
      (filter (λ row, row.1 ∉ Exclude sampleConfig) rows).*1 ∧
    Forall (λ table,
      ∃ cols constraints,
        getColumns (sampleDb [ordersKey; ordersUser; ordersLog]) "public"
          (Table_Name table) = Ok cols ∧
        getConstraints (sampleDb [ordersKey; ordersUser; ordersLog]) "public"
          (Table_Name table) = Ok constraints ∧
        Table_KeyColumns table =
          filter (λ col, Column_Name col ∈ primaryKeyNames constraints) cols ∧
        Table_Columns table =
          filter (λ col, Column_Name col ∉ primaryKeyNames constraints) cols ∧
        Table_ForeignKeys table = omap foreignKeyOf constraints)
      (Tables sampleSchema) ∧
    Enums sampleSchema = scanEnum <$> enumQuery types) ∧
  getFullSchema (publicOnly (sampleDb [ordersKey; ordersUser; ordersLog]))
    "public" sampleConfig =
  getFullSchema (sampleDb [ordersKey; ordersUser; ordersLog]) "public" sampleConfig.
Proof.
  split.
  - apply (proj1 (assembly_keeps_order
                    (sampleDb [ordersKey; ordersUser; ordersLog])
                    "public" sampleConfig) sampleSchema).
    vm_compute. reflexivity.
  - apply (proj2 (assembly_keeps_order
                    (sampleDb [ordersKey; ordersUser; ordersLog])
                    "public" sampleConfig)).
    repeat split; reflexivity.
Defined.

Example assembly_keeps_order_sample :
  Table_Name <$> Tables sampleSchema = ["users"; "orders"; "logs_archive"] ∧
  FK_Name <$> Table_ForeignKeys sampleOrders = ["orders_user_fk"; "orders_log_fk"] ∧
  Enum_Name <$> Enums sampleSchema = ["status"; "role"].
Proof. repeat split; reflexivity. Qed.

(** ** Enum labels through the delimiter *)

Lemma append_cons c s t : String c s +:+ t = String c (s +:+ t).
Proof. reflexivity. Qed.

Lemma append_nil_r s : s +:+ "" = s.
Proof. induction s as [|c s IH]; [done|]. by rewrite append_cons, IH. Qed.

Lemma append_assoc s t u : (s +:+ t) +:+ u = s +:+ (t +:+ u).
Proof. induction s as [|c s IH]; [done|]. by rewrite !append_cons, IH. Qed.

Lemma split_from_whole sep cur s :
  contains sep s = false → split_from sep cur s = [cur +:+ s].
Proof.
  revert cur. induction s as [|c s IH]; intros cur; simpl.
  - by rewrite append_nil_r.
  - intros [Hc Hs]%orb_false_elim. rewrite Hc, (IH _ Hs), append_assoc. done.
Qed.

Lemma split_from_piece sep cur s t :
  contains sep s = false →
  split_from sep cur (s +:+ String sep t) = (cur +:+ s) :: split_from sep "" t.
Proof.
  revert cur. induction s as [|c s IH]; intros cur.
  - intros _. change ("" +:+ String sep t) with (String sep t). simpl.
    by rewrite Ascii.eqb_refl, append_nil_r.
  - intros [Hc Hs]%orb_false_elim. rewrite append_cons. cbn [split_from].
    rewrite Hc, (IH _ Hs), append_assoc. done.
Qed.

(** Joining with the delimiter and splitting again gives the labels
    back when no label contains the delimiter. *)
Lemma Split_concat sep label labels :
  Forall (λ l, contains sep l = false) (label :: labels) →
  Split (String.concat (String sep "") (label :: labels)) sep = label :: labels.
Proof.
  unfold Split. revert label.
  induction labels as [|next labels IH]; intros label Hall.
  - simpl. apply Forall_cons in Hall as [Hl _]. by rewrite split_from_whole.
  - apply Forall_cons in Hall as [Hl Hrest].
    change (String.concat (String sep "") (label :: next :: labels))
      with (label +:+ String sep "" +:+ String.concat (String sep "") (next :: labels)).
    change (String sep "" +:+ ?x) with (String sep x).
    rewrite (split_from_piece _ _ _ _ Hl), (IH _ Hrest). done.
Qed.

Lemma getEnums_rows db schema types :
  pg_enum_types db schema = Ok types →
  getEnums db schema = Ok (scanEnum <$> enumQuery types).
Proof. intros H. unfold getEnums. rewrite H. by rewrite enumRows_map. Qed.

Lemma scanEnum_round_trip t label labels :
  enumlabels t = label :: labels →
  Forall (λ l, contains "|" l = false) (label :: labels) →
  Enum_Values <$> (scanEnum <$> enumRow t) = Some (label :: labels).
Proof.
  intros Hl Hall. unfold enumRow, string_agg. rewrite Hl. simpl.
  f_equal. by apply Split_concat.
Qed.

Example getEnums_status :
  getEnums (enumDb [statusEnum]) "public" =
    Ok [ {| Enum_Name := "status"; Enum_Description := "";
            Enum_Values := ["active"; "archived"; "deleted"] |} ].
Proof. reflexivity. Qed.

(** C7, where the code departs from it.  An enum declared with the two
    labels [yes|no] and [maybe] is assembled with the three values
    [yes], [no], [maybe]: the label holding the delimiter is cut in
    two. *)
Theorem getEnums_label_with_delimiter :
  enumlabels choiceEnum = ["yes|no"; "maybe"] ∧
  getEnums (enumDb [choiceEnum]) "public" =
    Ok [ {| Enum_Name := "choice"; Enum_Description := "";
            Enum_Values := ["yes"; "no"; "maybe"] |} ] ∧
  getFullSchema (enumDb [choiceEnum]) "public" sampleConfig =
    Ok {| Tables := [];
          Enums := [ {| Enum_Name := "choice"; Enum_Description := "";
                        Enum_Values := ["yes"; "no"; "maybe"] |} ] |}.
Proof. repeat split; reflexivity. Qed.

(** ** Foreign keys to tables outside the schema *)

(** C10. The referenced table of a foreign key is never looked up among
    the assembled tables: with [logs] excluded, the sample catalog is
    assembled without error, and the foreign key of [orders] to [logs]
    is in the schema although no table of the schema is named [logs]. *)
Theorem dangling_reference_accepted :
  ∃ db config s table fk,
    getFullSchema db "public" config = Ok s ∧
    table ∈ Tables s ∧
    fk ∈ Table_ForeignKeys table ∧
    (∃ rows, pg_statio_user_tables db "public" = Ok rows ∧
             FK_RefTable fk ∈ rows.*1) ∧
    FK_RefTable fk ∈ Exclude config ∧
    ∀ t, t ∈ Tables s → Table_Name t ≠ FK_RefTable fk.
Proof.
  exists (sampleDb [ordersKey; ordersUser; ordersLog]), sampleConfig, sampleSchema,
    sampleOrders,
    {| FK_Column := "log_id"; FK_Name := "orders_log_fk";
       FK_RefTable := "logs"; FK_RefColumn := "id" |}.
  split; [vm_compute; reflexivity|].
  split; [apply list_elem_of_lookup_2 with 1%nat; reflexivity|].
  split; [apply list_elem_of_lookup_2 with 1%nat; reflexivity|].
  split.
  { eexists. split; [reflexivity|].
    apply list_elem_of_lookup_2 with 1%nat. reflexivity. }
  split; [apply list_elem_of_lookup_2 with 0%nat; reflexivity|].
  intros t Ht. simpl in Ht.
  repeat (apply elem_of_cons in Ht as [->|Ht]; [discriminate|]).
  by apply elem_of_nil in Ht.
Qed.

(** * Further properties of the extraction *)

(** ** When a run returns a schema *)

Lemma assembleTable_assembleFrom db schema table :
  assembleTable db schema table =
  cols ← getColumns db schema (Table_Name table);
  constraints ← getConstraints db schema (Table_Name table);
  assembleFrom table cols constraints.
Proof. reflexivity. Qed.

Lemma classify_is_Ok tableName st c :
  is_Ok (classify tableName st c) ↔ acceptable tableName c.
Proof.
  destruct st as [pkCols fkCols]. unfold classify, acceptable, simpleForeignKey.
  destruct (String.eqb_spec (ConstraintType c) "PRIMARY KEY") as [Hpk|Hnpk].
  - split.
    + intros [[pk fk] Hok]. left. split; [done|].
      destruct (primaryKeyColumns _ _ _ _) as [pk'|e] eqn:Hp; [|discriminate].
      by apply primaryKeyColumns_Ok in Hp as [? _].
    + intros [[_ Hall]|[Hfk _]]; [|congruence].
      destruct (primaryKeyColumns_total tableName c _ pkCols Hall) as [pk' ->].
      by eexists.
  - destruct (String.eqb_spec (ConstraintType c) "FOREIGN KEY") as [Hfk|Hnfk].
    + split.
      * intros [[pk fk] Hok]. right. split; [done|].
        destruct (LocalColumns c) as [|localCol [|]]; try discriminate.
        destruct (ForeignColumns c) as [|foreignCol [|]]; try discriminate.
        simpl in Hok.
        destruct (String.eqb_spec (Ident_Table localCol) tableName); [|discriminate].
        by exists localCol, foreignCol.
      * intros [[? _]|[_ (l & f & -> & -> & Ht)]]; [congruence|]. simpl.
        rewrite <- Ht, String.eqb_refl. simpl. by eexists.
    + split; [by intros [? ?] | intros [[? _]|[? _]]; congruence].
Qed.

Lemma classifyAll_is_Ok tableName st constraints :
  is_Ok (classifyAll tableName st constraints) ↔
  Forall (acceptable tableName) constraints.
Proof.
  revert st. induction constraints as [|c constraints IH]; intros st.
  - split; [constructor | by eexists].
  - cbn [classifyAll]. rewrite Forall_cons, <- (classify_is_Ok _ st).
    destruct (classify tableName st c) as [st'|e]; cbn [mbind result_bind].
    + rewrite IH. split; [split; [by eexists | done] | by intros [_ ?]].
    + split; [by intros [? ?] | by intros [[? ?] _]].
Qed.

Lemma assembleFrom_is_Ok table cols constraints :
  is_Ok (assembleFrom table cols constraints) ↔
  Forall (acceptable (Table_Name table)) constraints.
Proof.
  rewrite <- (classifyAll_is_Ok _ (∅, [])). unfold assembleFrom.
  destruct (classifyAll _ _ constraints) as [st|e]; cbn [mbind result_bind].
  - destruct (partitionColumns _ _ _ _). split; intros _; by eexists.
  - split; by intros [? ?].
Qed.

Lemma mapM_is_Ok {A B} (f : A → result B) l :
  is_Ok (mapM f l) ↔ Forall (λ a, is_Ok (f a)) l.
Proof.
  induction l as [|a l IH]; simpl.
  - split; [constructor | by eexists].
  - rewrite Forall_cons, <- IH. destruct (f a) as [b|e]; simpl.
    + destruct (mapM f l) as [bs|e]; simpl.
      * split; [intros _; split; by eexists | intros _; by eexists].
      * split; [by intros [? ?] | by intros [_ [? ?]]].
    + split; [by intros [? ?] | by intros [[? ?] _]].
Qed.

(** X1. [getFullSchema] returns a schema exactly when the table-list
    query answers, for every table that is not excluded the column
    query and the constraint query answer and every row decodes into a
    constraint that is a PRIMARY KEY with all local columns owned by the
    table or a FOREIGN KEY with one local column, owned by the table,
    and one foreign column, and the enum query answers. *)
Theorem getFullSchema_succeeds_iff db schema config :
  is_Ok (getFullSchema db schema config) ↔
  ∃ tables,
    getTableNames db schema (Exclude config) = Ok tables ∧
    Forall (λ table,
      ∃ cols constraints,
        getColumns db schema (Table_Name table) = Ok cols ∧
        getConstraints db schema (Table_Name table) = Ok constraints ∧
        Forall (acceptable (Table_Name table)) constraints) tables ∧
    is_Ok (pg_enum_types db schema).
Proof.
  assert (∀ table,
    is_Ok (assembleTable db schema table) ↔
    ∃ cols constraints,
      getColumns db schema (Table_Name table) = Ok cols ∧
      getConstraints db schema (Table_Name table) = Ok constraints ∧
      Forall (acceptable (Table_Name table)) constraints) as Htable.
  { intros table. rewrite assembleTable_assembleFrom.
    destruct (getColumns _ _ _) as [cols|e]; cbn [mbind result_bind].
    - destruct (getConstraints _ _ _) as [cs|e]; cbn [mbind result_bind].
      + rewrite assembleFrom_is_Ok. split.
        * intros H. by exists cols, cs.
        * by intros (? & ? & [= <-] & [= <-] & ?).
      + split; [by intros [? ?] | by intros (? & ? & _ & ? & _)].
    - split; [by intros [? ?] | by intros (? & ? & ? & _)]. }
  rewrite getFullSchema_unfold.
  destruct (getTableNames _ _ _) as [tables|e]; cbn [mbind result_bind].
  - destruct (mapM _ tables) as [tables'|e] eqn:Hm; cbn [mbind result_bind].
    + assert (Forall (λ t, is_Ok (assembleTable db schema t)) tables) as Hall
        by (apply mapM_is_Ok; rewrite Hm; by eexists).
      unfold getEnums. destruct (pg_enum_types db schema) as [types|e].
      * split; [intros _ | intros _; by eexists].
        exists tables. split; [done|]. split; [|by eexists].
        eapply Forall_impl; [exact Hall|]. intros t. apply Htable.
      * split; [by intros [? ?] | by intros (? & _ & _ & [? ?])].
    + split; [by intros [? ?]|].
      intros (? & [= <-] & Hall & _). exfalso.
      assert (is_Ok (mapM (assembleTable db schema) tables)) as [? Hok].
      { apply mapM_is_Ok. eapply Forall_impl; [exact Hall|].
        intros t. apply Htable. }
      congruence.
  - split; [by intros [? ?] | by intros (? & ? & _)].
Qed.

(** ** What the result does not depend on *)

Lemma mapM_ext_Forall {A B} (f g : A → result B) l :
  Forall (λ a, f a = g a) l → mapM f l = mapM g l.
Proof. induction 1 as [|a l Ha _ IH]; simpl; [done|]. by rewrite Ha, IH. Qed.

Lemma getTableNames_not_excluded db schema exclude tables :
  getTableNames db schema exclude = Ok tables →
  Forall (λ table, Table_Name table ∉ exclude) tables.
Proof.
  unfold getTableNames.
  destruct (pg_statio_user_tables db schema) as [rows|e]; [|discriminate].
  simpl. intros [= <-]. rewrite tableRows_filter. simpl.
  apply Forall_fmap, Forall_forall. by intros row [? _]%list_elem_of_filter.
Qed.

(** X2. The answers of the column and constraint queries for excluded
    tables never reach the result: two catalogs with the same table
    list and enums, and the same columns and constraints for every table
    name outside the exclusion list, give the same result, whatever they
    answer (or fail to answer) for the excluded names. *)
Theorem getFullSchema_ignores_excluded db db' schema config :
  pg_statio_user_tables db schema = pg_statio_user_tables db' schema →
  pg_enum_types db schema = pg_enum_types db' schema →
  (∀ name, name ∉ Exclude config →
     information_schema_columns db schema name =
       information_schema_columns db' schema name ∧
     table_constraints db schema name = table_constraints db' schema name) →
  getFullSchema db schema config = getFullSchema db' schema config.
Proof.
  intros Ht He Hsame. rewrite !getFullSchema_unfold.
  assert (getTableNames db' schema (Exclude config) =
          getTableNames db schema (Exclude config)) as ->
    by (unfold getTableNames; by rewrite Ht).
  destruct (getTableNames db schema (Exclude config)) as [tables|e] eqn:Htables;
    cbn [mbind result_bind]; [|done].
  rewrite (mapM_ext_Forall (assembleTable db schema) (assembleTable db' schema)).
  - unfold getEnums. by rewrite He.
  - eapply Forall_impl; [exact (getTableNames_not_excluded _ _ _ _ Htables)|].
    intros table Hn. destruct (Hsame _ Hn) as [Hc Hk].
    unfold assembleTable, getColumns, getConstraints. by rewrite Hc, Hk.
Qed.

Lemma getFullSchema_ignores_excluded_witness :
  getFullSchema (sampleDb [ordersKey; ordersUser; ordersLog]) "public" sampleConfig =
  getFullSchema (columnsDenied "logs" (sampleDb [ordersKey; ordersUser; ordersLog]))
    "public" sampleConfig.
Proof.
  apply getFullSchema_ignores_excluded; [reflexivity | reflexivity |].
  intros name Hname. split; [|reflexivity]. simpl.
  destruct (String.eqb_spec name "logs") as [->|_]; [|reflexivity].
  exfalso. apply Hname. simpl. left.
Defined.

(** X3. The exclusion list acts as a set: two lists with the same
    entries, in any order and with any repetitions, select the same
    tables. *)
Theorem getTableNames_exclusion_set db schema exclude exclude' :
  (∀ name, name ∈ exclude ↔ name ∈ exclude') →
  getTableNames db schema exclude = getTableNames db schema exclude'.
Proof.
  intros Hset. unfold getTableNames.
  destruct (pg_statio_user_tables db schema) as [rows|e]; simpl; [|done].
  rewrite !tableRows_filter. simpl. do 2 f_equal.
  apply list_filter_iff. intros row. by rewrite Hset.
Qed.

Lemma getTableNames_exclusion_set_witness :
  getTableNames (sampleDb []) "public" ["logs"; "users"] =
  getTableNames (sampleDb []) "public" ["users"; "logs"; "users"].
Proof.
  apply getTableNames_exclusion_set. intros name.
  rewrite !elem_of_cons, !elem_of_nil. tauto.
Defined.

(** ** Failures of the queries *)

(** X4. With the table list read, a failing column query of a table
    reached by the loop is the error of the run, whatever its constraint
    query would answer; a failing constraint query, or its first row
    that does not decode, is the error of the run when the column query
    answered; and a failing enum query is the error of the run, prefixed
    with "Looking up enums ", only when every table was assembled. *)
Theorem getFullSchema_query_failure db schema config tables :
  getTableNames db schema (Exclude config) = Ok tables →
  (∀ done table rest e,
     tables = done ++ table :: rest →
     Forall (λ t, is_Ok (assembleTable db schema t)) done →
     (getColumns db schema (Table_Name table) = Err e →
      getFullSchema db schema config = Err e) ∧
     (is_Ok (getColumns db schema (Table_Name table)) →
      getConstraints db schema (Table_Name table) = Err e →
      getFullSchema db schema config = Err e)) ∧
  (∀ e,
     Forall (λ t, is_Ok (assembleTable db schema t)) tables →
     pg_enum_types db schema = Err e →
     getFullSchema db schema config = Err ("Looking up enums " +:+ e)).
Proof.
  intros Htables. split.
  - intros done table rest e -> Hdone. split.
    + intros Hc. apply (getFullSchema_Err _ _ _ _ _ _ _ Htables Hdone).
      unfold assembleTable. by rewrite Hc.
    + intros [cols Hc] Hk. apply (getFullSchema_Err _ _ _ _ _ _ _ Htables Hdone).
      unfold assembleTable. by rewrite Hc, Hk.
  - intros e Hall He. rewrite getFullSchema_unfold, Htables. simpl.
    apply mapM_is_Ok in Hall as [tables' ->]. simpl.
    unfold getEnums. by rewrite He.
Qed.

Lemma getFullSchema_query_failure_witness :
  getFullSchema (columnsDenied "orders" (sampleDb [ordersPair])) "public"
    sampleConfig = Err "permission denied" ∧
  getFullSchema (enumsDenied (sampleDb [ordersKey; ordersUser])) "public"
    sampleConfig = Err "Looking up enums permission denied".
Proof.
  split.
  - apply (proj1 (proj1 (getFullSchema_query_failure
                           (columnsDenied "orders" (sampleDb [ordersPair]))
                           "public" sampleConfig
                           [usersStub; ordersStub; archiveStub] eq_refl)
                    [usersStub] ordersStub [archiveStub] "permission denied"
                    eq_refl
                    ltac:(repeat constructor; eexists; vm_compute; reflexivity))).
    reflexivity.
  - apply (proj2 (getFullSchema_query_failure
                    (enumsDenied (sampleDb [ordersKey; ordersUser]))
                    "public" sampleConfig
                    [usersStub; ordersStub; archiveStub] eq_refl)).
    + repeat constructor; eexists; vm_compute; reflexivity.
    + reflexivity.
Defined.

(** X5. [getConstraints] decodes the rows in order and stops at the
    first one that does not decode: its error is returned and the
    constraints before it are dropped; when every row decodes, the
    constraints come back in row order. *)
Theorem getConstraints_first_bad_row db schema tableName :
  (∀ good e rest,
     table_constraints db schema tableName = Ok ((Ok <$> good) ++ Err e :: rest) →
     getConstraints db schema tableName = Err e) ∧
  (∀ good,
     table_constraints db schema tableName = Ok (Ok <$> good) →
     getConstraints db schema tableName = Ok good).
Proof.
  split.
  - intros good e rest Hrows. unfold getConstraints. rewrite Hrows. simpl.
    rewrite constraintRows_mapM.
    rewrite (mapM_Err id (Ok <$> good) (Err e) rest e); [done| |done].
    apply Forall_fmap, Forall_forall. intros c _. by exists c.
  - intros good Hrows. unfold getConstraints. rewrite Hrows. simpl.
    by rewrite constraintRows_mapM, mapM_id_Ok.
Qed.

Lemma getConstraints_first_bad_row_witness :
  getConstraints truncatedDb "public" "users" = Err "unexpected end of JSON input" ∧
  getConstraints (sampleDb [ordersKey; ordersUser]) "public" "orders" =
    Ok [ordersKey; ordersUser].
Proof.
  split.
  - apply (proj1 (getConstraints_first_bad_row truncatedDb "public" "users")
             [usersKey] _ [Ok ordersPair]).
    reflexivity.
  - apply (proj2 (getConstraints_first_bad_row
                    (sampleDb [ordersKey; ordersUser]) "public" "orders")).
    reflexivity.
Defined.

(** ** Enums *)

Lemma split_from_not_nil sep cur s : split_from sep cur s ≠ [].
Proof.
  revert cur. induction s as [|c s IH]; intros cur; simpl; [done|].
  destruct (Ascii.eqb c sep); [done | apply IH].
Qed.

Lemma enumRow_is_Some t : is_Some (enumRow t) ↔ enumlabels t ≠ [].
Proof.
  unfold enumRow, string_agg. destruct (enumlabels t); simpl.
  - split; [by intros [? ?] | done].
  - split; [done | by eexists].
Qed.

Lemma enumQuery_names types :
  (Enum_Name ∘ scanEnum) <$> enumQuery types =
  typname <$> filter (λ t, enumlabels t ≠ []) types.
Proof.
  unfold enumQuery. induction types as [|t types IH]; [done|].
  destruct (enumlabels t) as [|label labels] eqn:Hl.
  - rewrite filter_cons_False by (intros H; by apply H).
    csimpl. unfold enumRow at 1, string_agg. by rewrite Hl.
  - rewrite filter_cons_True by (by rewrite Hl).
    csimpl. unfold enumRow at 1, string_agg. rewrite Hl. csimpl.
    by rewrite <- IH.
Qed.

(** X6. An enum type comes out of [getEnums] exactly when it has at
    least one label, in the order of the query, and every enum that
    comes out has at least one value: types without labels are left out
    of the schema rather than listed with no values. *)
Theorem getEnums_only_labelled db schema types :
  pg_enum_types db schema = Ok types →
  ∃ enums,
    getEnums db schema = Ok enums ∧
    Enum_Name <$> enums = typname <$> filter (λ t, enumlabels t ≠ []) types ∧
    Forall (λ enum, Enum_Values enum ≠ []) enums.
Proof.
  intros Htypes. eexists. split; [by apply getEnums_rows|]. split.
  - rewrite <- list_fmap_compose. apply enumQuery_names.
  - apply Forall_fmap, Forall_forall. intros [[name valsRaw] description] _.
    simpl. apply split_from_not_nil.
Qed.

Lemma getEnums_only_labelled_witness :
  ∃ enums,
    getEnums (enumDb [emptyEnum; statusEnum; emptyEnum]) "public" = Ok enums ∧
    Enum_Name <$> enums =
      typname <$> filter (λ t, enumlabels t ≠ []) [emptyEnum; statusEnum; emptyEnum] ∧
    Forall (λ enum, Enum_Values enum ≠ []) enums.
Proof.
  apply (getEnums_only_labelled (enumDb [emptyEnum; statusEnum; emptyEnum]) "public").
  reflexivity.
Defined.

Lemma enumQuery_round_trip types :
  Forall (λ t, Forall (λ l, contains "|" l = false) (enumlabels t)) types →
  scanEnum <$> enumQuery types = enumOf <$> filter (λ t, enumlabels t ≠ []) types.
Proof.
  unfold enumQuery. induction 1 as [|t types Ht _ IH]; [done|].
  destruct (enumlabels t) as [|label labels] eqn:Hl.
  - rewrite filter_cons_False by (intros H; by apply H).
    csimpl. unfold enumRow at 1, string_agg. by rewrite Hl.
  - rewrite filter_cons_True by (by rewrite Hl).
    csimpl. unfold enumRow at 1, string_agg. rewrite Hl. csimpl.
    rewrite <- IH. f_equal.
    unfold enumOf. rewrite Hl. f_equal. by apply Split_concat.
Qed.

(** X7. When no label of any enum type contains the byte [|], the enums
    returned are the enum types that have labels, each with its name,
    its description (empty when there is none) and its labels in the
    declared order. *)
Theorem getEnums_labels_round_trip db schema types :
  pg_enum_types db schema = Ok types →
  Forall (λ t, Forall (λ l, contains "|" l = false) (enumlabels t)) types →
  getEnums db schema = Ok (enumOf <$> filter (λ t, enumlabels t ≠ []) types).
Proof.
  intros Htypes Hall. rewrite (getEnums_rows _ _ _ Htypes).
  by rewrite enumQuery_round_trip.
Qed.

Lemma getEnums_labels_round_trip_witness :
  getEnums (enumDb [statusEnum; emptyEnum]) "public" =
  Ok (enumOf <$> filter (λ t, enumlabels t ≠ []) [statusEnum; emptyEnum]).
Proof.
  apply getEnums_labels_round_trip; [reflexivity|].
  repeat constructor.
Defined.

(** ** The order of the constraints *)





(** * The diagram renderer *)

Lemma joined_app l1 l2 : joined (l1 ++ l2) = joined l1 +:+ joined l2.
Proof.
  induction l1 as [|x l1 IH]; simpl; [done|]. by rewrite IH, append_assoc.
Qed.

(** A loop whose turns append a piece to the text appends the pieces in
    order. *)
Lemma fold_left_appends {A} (step : PUMLWriter → A → PUMLWriter)
    (piece : PUMLOptions → A → string) :
  (∀ c a, step c a =
     {| PUMLWriter_PUMLOptions := PUMLWriter_PUMLOptions c;
        PUMLWriter_data := PUMLWriter_data c +:+ piece (PUMLWriter_PUMLOptions c) a |}) →
  ∀ l c, fold_left step l c =
    {| PUMLWriter_PUMLOptions := PUMLWriter_PUMLOptions c;
       PUMLWriter_data :=
         PUMLWriter_data c +:+ joined (piece (PUMLWriter_PUMLOptions c) <$> l) |}.
Proof.
  intros Hstep l. induction l as [|a l IH]; intros c; simpl.
  - rewrite append_nil_r. by destruct c.
  - rewrite IH, Hstep. simpl. by rewrite append_assoc.
Qed.

Lemma PUMLWriter_Column_appends c column :
  PUMLWriter_Column c column =
  {| PUMLWriter_PUMLOptions := PUMLWriter_PUMLOptions c;
     PUMLWriter_data :=
       PUMLWriter_data c +:+ columnLine (PUMLWriter_PUMLOptions c) column |}.
Proof.
  unfold PUMLWriter_Column, columnLine, PUMLWriter_Printf.
  destruct (IncludeDataTypes (PUMLWriter_PUMLOptions c)); f_equal; f_equal;
    change (Sprintf ("  %s%s: %s" +:+ LF) ?l) with
      ("  " +:+ (nth 0 l "") +:+ ((nth 1 l "") +:+ (": " +:+ ((nth 2 l "") +:+ LF))));
    change (Sprintf ("  %s%s" +:+ LF) ?l) with
      ("  " +:+ (nth 0 l "") +:+ ((nth 1 l "") +:+ LF));
    simpl nth; by rewrite ?append_assoc.
Qed.

Lemma PUMLWriter_Table_appends c table :
  PUMLWriter_Table c table =
  {| PUMLWriter_PUMLOptions := PUMLWriter_PUMLOptions c;
     PUMLWriter_data :=
       PUMLWriter_data c +:+ entityBlock (PUMLWriter_PUMLOptions c) table |}.
Proof.
  unfold PUMLWriter_Table, entityBlock.
  rewrite !(fold_left_appends _ _ PUMLWriter_Column_appends).
  unfold PUMLWriter_Println, PUMLWriter_Printf.
  cbn [PUMLWriter_data PUMLWriter_PUMLOptions]. f_equal.
  change (Sprintf ("entity %s {" +:+ LF) [Table_Name table])
    with ("entity " +:+ (Table_Name table +:+ (" {" +:+ LF))).
  by rewrite !append_assoc.
Qed.

Lemma relation_appends table c fk :
  PUMLWriter_Printf c ("%s }|--|| %s" +:+ LF) [Table_Name table; FK_RefTable fk] =
  {| PUMLWriter_PUMLOptions := PUMLWriter_PUMLOptions c;
     PUMLWriter_data := PUMLWriter_data c +:+ relationLine table fk |}.
Proof. reflexivity. Qed.

Lemma relations_append c table :
  fold_left (λ c fk,
      PUMLWriter_Printf c ("%s }|--|| %s" +:+ LF) [Table_Name table; FK_RefTable fk])
    (Table_ForeignKeys table) c =
  {| PUMLWriter_PUMLOptions := PUMLWriter_PUMLOptions c;
     PUMLWriter_data := PUMLWriter_data c +:+ relationLines table |}.
Proof.
  exact (fold_left_appends _ (λ _, relationLine table) (relation_appends table)
           (Table_ForeignKeys table) c).
Qed.

(** X9. The writer only ever adds to its text, and what [Schema] adds is
    the line [@startuml], then, if columns are included, one entity
    block per table in table order, then one relation line per foreign
    key in table order and foreign-key order, then the line [@enduml];
    [pumlDump] hands exactly that text to the writer in a single call
    and panics with the writer's error if that call fails. *)
Theorem PUMLWriter_Schema_layout c schema Write :
  PUMLWriter_Schema c schema =
    {| PUMLWriter_PUMLOptions := PUMLWriter_PUMLOptions c;
       PUMLWriter_data :=
         PUMLWriter_data c +:+ diagram (PUMLWriter_PUMLOptions c) schema |} ∧
  pumlDump schema Write (PUMLWriter_PUMLOptions c) =
    match Write (diagram (PUMLWriter_PUMLOptions c) schema) with
    | Err e => Err e
    | Ok _ => Ok tt
    end.
Proof.
  assert (∀ c, PUMLWriter_Schema c schema =
    {| PUMLWriter_PUMLOptions := PUMLWriter_PUMLOptions c;
       PUMLWriter_data :=
         PUMLWriter_data c +:+ diagram (PUMLWriter_PUMLOptions c) schema |}) as Hs.
  { clear c. intros c. unfold PUMLWriter_Schema, diagram.
    rewrite (fold_left_appends _ (λ _, relationLines) relations_append).
    cbn [PUMLWriter_Println PUMLWriter_PUMLOptions PUMLWriter_data].
    destruct (IncludeColumns (PUMLWriter_PUMLOptions c)).
    - rewrite (fold_left_appends _ _ PUMLWriter_Table_appends).
      unfold PUMLWriter_Println.
      cbn [PUMLWriter_PUMLOptions PUMLWriter_data]. f_equal.
      by rewrite !append_assoc.
    - unfold PUMLWriter_Println.
      cbn [PUMLWriter_PUMLOptions PUMLWriter_data]. f_equal.
      by rewrite !append_assoc. }
  split; [apply Hs|]. unfold pumlDump. by rewrite Hs.
Qed.

Example pumlDump_sample :
  diagram {| IncludeColumns := false; IncludeDataTypes := true |} sampleSchema =
  "@startuml" +:+ LF +:+ "orders }|--|| users" +:+ LF
    +:+ "orders }|--|| logs" +:+ LF +:+ "@enduml" +:+ LF.
Proof. reflexivity. Qed.

(** ** What the diagram shows *)

Lemma fmap_view_eq {A B C} (view : A → B) (f : A → C) :
  (∀ a a', view a = view a' → f a = f a') →
  ∀ l l' : list A, view <$> l = view <$> l' → f <$> l = f <$> l'.
Proof.
  intros Hf l. induction l as [|a l IH]; intros [|a' l'] Hl; try done.
  injection Hl as Ha Hl. csimpl. by rewrite (Hf _ _ Ha), (IH _ Hl).
Qed.

Lemma columnLine_view options column column' :
  columnView options column = columnView options column' →
  columnLine options column = columnLine options column'.
Proof.
  unfold columnView, columnLine. intros [= -> -> Hd].
  destruct (IncludeDataTypes options); [by rewrite Hd | done].
Qed.

Lemma relationLines_view table table' :
  Table_Name table = Table_Name table' →
  FK_RefTable <$> Table_ForeignKeys table = FK_RefTable <$> Table_ForeignKeys table' →
  relationLines table = relationLines table'.
Proof.
  intros Hn Hf. unfold relationLines. f_equal.
  rewrite (fmap_view_eq FK_RefTable (relationLine table)
             (λ fk fk' Hr, f_equal (λ r, Table_Name table +:+ " }|--|| " +:+ r +:+ LF) Hr)
             _ _ Hf).
  apply list_fmap_ext. intros _ fk _. unfold relationLine. by rewrite Hn.
Qed.

(** X10. The diagram shows nothing but table names, the referenced
    table of each foreign key and, when columns are included, each
    column's name and nullability, with its data type only when data
    types are included: two schemas alike in these give the same text,
    whatever their descriptions, custom-type flags, constraint names,
    referenced columns and enums. *)
Theorem diagram_view options schema schema' :
  tableView options <$> Tables schema = tableView options <$> Tables schema' →
  diagram options schema = diagram options schema'.
Proof.
  intros Hview. unfold diagram.
  assert (relationLines <$> Tables schema = relationLines <$> Tables schema') as ->.
  { apply (fmap_view_eq (tableView options)); [|done].
    intros t t' [= Hn _ _ Hf]. by apply relationLines_view. }
  destruct (IncludeColumns options) eqn:Hinc; [|done].
  assert (entityBlock options <$> Tables schema =
          entityBlock options <$> Tables schema') as ->; [|done].
  apply (fmap_view_eq (tableView options)); [|done].
  intros t t'. unfold tableView. rewrite Hinc. intros [= Hn Hk Hc _].
  unfold entityBlock. rewrite Hn.
  rewrite (fmap_view_eq _ _ (columnLine_view options) _ _ Hk).
  by rewrite (fmap_view_eq _ _ (columnLine_view options) _ _ Hc).
Qed.

Lemma diagram_view_witness :
  diagram {| IncludeColumns := false; IncludeDataTypes := true |} sampleSchema =
  diagram {| IncludeColumns := false; IncludeDataTypes := true |}
    {| Tables :=
         [ scanTable ("users", None);
           {| Table_Name := "orders"; Table_Description := "Orders";
              Table_KeyColumns := []; Table_Columns := [];
              Table_ForeignKeys :=
                [ {| FK_Column := "a"; FK_Name := "b";
                     FK_RefTable := "users"; FK_RefColumn := "c" |};
                  {| FK_Column := "d"; FK_Name := "e";
                     FK_RefTable := "logs"; FK_RefColumn := "f" |} ] |};
           scanTable ("logs_archive", None) ];
       Enums := [] |}.
Proof. apply diagram_view. reflexivity. Defined.

(** ** The number of lines *)

Lemma countByte_app b s t : countByte b (s +:+ t) = countByte b s + countByte b t.
Proof.
  induction s as [|c s IH]; [done|]. rewrite append_cons. simpl. rewrite IH. lia.
Qed.

Lemma countByte_joined {A} b (f : A → string) (n : nat) l :
  Forall (λ a, countByte b (f a) = n) l →
  countByte b (joined (f <$> l)) = n * length l.
Proof.
  induction 1 as [|a l Ha _ IH]; csimpl; [lia|].
  rewrite countByte_app, Ha, IH. lia.
Qed.

Lemma columnLine_one_line options column :
  oneLineColumn column → countByte "010" (columnLine options column) = 1.
Proof.
  intros [Hn Hd]. unfold columnLine, oneLine in *.
  rewrite !countByte_app, Hn.
  destruct (Column_IsNullable column), (IncludeDataTypes options);
    rewrite ?countByte_app, ?Hd; reflexivity.
Qed.

Lemma entityBlock_lines options table :
  oneLineTable table →
  countByte "010" (entityBlock options table) =
  3 + length (Table_KeyColumns table) + length (Table_Columns table).
Proof.
  intros (Hn & Hk & Hc & _). unfold entityBlock, oneLine in *.
  rewrite !countByte_app, Hn.
  rewrite (countByte_joined _ (columnLine options) 1 (Table_KeyColumns table)),
          (countByte_joined _ (columnLine options) 1 (Table_Columns table)).
  - simpl. lia.
  - eapply Forall_impl; [exact Hc|]. intros. by apply columnLine_one_line.
  - eapply Forall_impl; [exact Hk|]. intros. by apply columnLine_one_line.
Qed.

Lemma relationLines_lines table :
  oneLineTable table →
  countByte "010" (relationLines table) = length (Table_ForeignKeys table).
Proof.
  intros (Hn & _ & _ & Hf). unfold relationLines.
  rewrite (countByte_joined _ (relationLine table) 1); [lia|].
  eapply Forall_impl; [exact Hf|]. intros fk Hfk. unfold relationLine, oneLine in *.
  rewrite !countByte_app, Hn, Hfk. reflexivity.
Qed.

Lemma countByte_joined_sum {A} b (f : A → string) (g : A → nat) l :
  Forall (λ a, countByte b (f a) = g a) l →
  countByte b (joined (f <$> l)) = sum_list (g <$> l).
Proof.
  induction 1 as [|a l Ha _ IH]; csimpl; [done|].
  by rewrite countByte_app, Ha, IH.
Qed.

(** X11. When no table name, column name, data type or referenced table
    name holds a line feed, the diagram has two framing lines, one line
    per foreign key and, if columns are included, three lines per table
    and one per column, and not one more. *)
Theorem diagram_line_count options schema :
  Forall oneLineTable (Tables schema) →
  countByte "010" (diagram options schema) =
  2 + (if IncludeColumns options
       then sum_list ((λ table, 3 + length (Table_KeyColumns table)
                                  + length (Table_Columns table)) <$> Tables schema)
       else 0)
    + sum_list ((λ table, length (Table_ForeignKeys table)) <$> Tables schema).
Proof.
  intros Hall. unfold diagram. rewrite !countByte_app.
  rewrite (countByte_joined_sum _ relationLines
             (λ table, length (Table_ForeignKeys table))).
  - destruct (IncludeColumns options).
    + rewrite (countByte_joined_sum _ (entityBlock options)
                 (λ table, 3 + length (Table_KeyColumns table)
                             + length (Table_Columns table))).
      * simpl. lia.
      * eapply Forall_impl; [exact Hall|]. intros. by apply entityBlock_lines.
    + simpl. lia.
  - eapply Forall_impl; [exact Hall|]. intros. by apply relationLines_lines.
Qed.

Lemma diagram_line_count_witness :
  countByte "010"
    (diagram {| IncludeColumns := true; IncludeDataTypes := true |} sampleSchema) =
  2 + sum_list ((λ table, 3 + length (Table_KeyColumns table)
                            + length (Table_Columns table)) <$> Tables sampleSchema)
    + sum_list ((λ table, length (Table_ForeignKeys table)) <$> Tables sampleSchema).
Proof.
  apply (diagram_line_count {| IncludeColumns := true; IncludeDataTypes := true |}
           sampleSchema).
  repeat constructor.
Defined.

(** * The template functions *)

(** ** mdescape *)

Lemma replace_byte_cons b new c s :
  replace_from (String b "") new 0 (String c s) =
  if Ascii.eqb c b then new +:+ replace_from (String b "") new 0 s
  else String c (replace_from (String b "") new 0 s).
Proof.
  cbn [replace_from String.prefix String.length Nat.sub].
  destruct (ascii_dec b c) as [->|Hne].
  - rewrite Ascii.eqb_refl. by destruct s.
  - apply not_eq_sym, Ascii.eqb_neq in Hne. by rewrite Hne.
Qed.

Lemma replace_byte_count b new s :
  countByte b new = 0 →
  countByte b (replace_from (String b "") new 0 s) = 0.
Proof.
  intros Hnew. induction s as [|c s IH]; [done|].
  rewrite replace_byte_cons. destruct (Ascii.eqb c b) eqn:Hc.
  - by rewrite countByte_app, Hnew, IH.
  - simpl. by rewrite Hc, IH.
Qed.

Lemma replace_from_absent b old' new s :
  countByte b s = 0 → replace_from (String b old') new 0 s = s.
Proof.
  induction s as [|c s IH]; [done|]. simpl.
  destruct (Ascii.eqb c b) eqn:Hc; [discriminate|]. simpl. intros Hs.
  destruct (ascii_dec b c) as [->|_]; [by rewrite Ascii.eqb_refl in Hc|].
  by rewrite (IH Hs).
Qed.

Lemma replace_byte_app b new s t :
  replace_from (String b "") new 0 (s +:+ t) =
  replace_from (String b "") new 0 s +:+ replace_from (String b "") new 0 t.
Proof.
  induction s as [|c s IH]; [done|].
  rewrite append_cons, !replace_byte_cons, IH.
  destruct (Ascii.eqb c b); [by rewrite append_assoc | done].
Qed.

Lemma replace_pair_found b new a rest :
  countByte b a = 0 →
  replace_from (String b (String b "")) new 0 (a +:+ String b (String b rest)) =
  a +:+ new +:+ replace_from (String b (String b "")) new 0 rest.
Proof.
  intros Ha. induction a as [|c a IH].
  - change ("" +:+ ?x) with x.
    cbn [replace_from String.prefix String.length Nat.sub].
    destruct (ascii_dec b b) as [_|Hne]; [|done]. by destruct rest.
  - simpl in Ha. destruct (Ascii.eqb c b) eqn:Hc; [discriminate|].
    rewrite !append_cons. cbn [replace_from String.prefix].
    destruct (ascii_dec b c) as [->|_]; [by rewrite Ascii.eqb_refl in Hc|].
    by rewrite (IH Ha).
Qed.

Lemma replace_pair_single b new a rest :
  countByte b a = 0 →
  (∀ rest', rest ≠ String b rest') →
  replace_from (String b (String b "")) new 0 (a +:+ String b rest) =
  a +:+ String b (replace_from (String b (String b "")) new 0 rest).
Proof.
  intros Ha Hrest. induction a as [|c a IH].
  - change ("" +:+ ?x) with x.
    cbn [replace_from String.prefix].
    destruct (ascii_dec b b) as [_|Hne]; [|done].
    destruct rest as [|c rest']; [done|]. cbn [String.prefix].
    destruct (ascii_dec b c) as [->|_]; [|done].
    exfalso. by apply (Hrest rest').
  - simpl in Ha. destruct (Ascii.eqb c b) eqn:Hc; [discriminate|].
    rewrite !append_cons. cbn [replace_from String.prefix].
    destruct (ascii_dec b c) as [->|_]; [by rewrite Ascii.eqb_refl in Hc|].
    by rewrite (IH Ha).
Qed.

Lemma mdescape_eq val :
  mdescape val =
  replace_from (String "010" "") " " 0
    (replace_from (String "010" (String "010" "")) "<br>" 0 val).
Proof. reflexivity. Qed.

(** X12. The text [mdescape] returns never holds a line feed, so that a
    description stays within its table cell. *)
Theorem mdescape_one_line val : oneLine (mdescape val).
Proof. unfold mdescape, ReplaceAll, oneLine. by apply replace_byte_count. Qed.

(** X13. [mdescape] leaves a text without line feed as it is. *)
Theorem mdescape_unchanged val : oneLine val → mdescape val = val.
Proof.
  intros Hval. rewrite mdescape_eq.
  rewrite (replace_from_absent "010" (String "010" "") "<br>" val Hval).
  by apply replace_from_absent.
Qed.

Lemma mdescape_unchanged_witness :
  mdescape "Customer orders, one row per order." =
  "Customer orders, one row per order.".
Proof. apply mdescape_unchanged. reflexivity. Defined.

(** X14. After a first line without line feed, [mdescape] turns a pair
    of line feeds into [<br>] and a line feed that is not followed by
    another into a space, and treats what follows the same way. *)
Theorem mdescape_breaks a b :
  oneLine a →
  mdescape (a +:+ LF +:+ LF +:+ b) = a +:+ "<br>" +:+ mdescape b ∧
  ((∀ rest, b ≠ LF +:+ rest) →
   mdescape (a +:+ LF +:+ b) = a +:+ " " +:+ mdescape b).
Proof.
  intros Ha. rewrite !mdescape_eq. split.
  - change (a +:+ LF +:+ LF +:+ b) with (a +:+ String "010" (String "010" b)).
    rewrite (replace_pair_found "010" "<br>" a b Ha).
    rewrite !replace_byte_app.
    by rewrite (replace_from_absent "010" "" " " a Ha).
  - intros Hb.
    change (a +:+ LF +:+ b) with (a +:+ String "010" b).
    rewrite (replace_pair_single "010" "<br>" a b Ha Hb).
    rewrite replace_byte_app, replace_byte_cons, Ascii.eqb_refl.
    by rewrite (replace_from_absent "010" "" " " a Ha).
Qed.

Lemma mdescape_breaks_witness :
  mdescape ("Orders." +:+ LF +:+ LF +:+ "One row" +:+ LF +:+ "per order.") =
    "Orders." +:+ "<br>" +:+ mdescape ("One row" +:+ LF +:+ "per order.") ∧
  mdescape ("One row" +:+ LF +:+ "per order.") =
    "One row" +:+ " " +:+ mdescape "per order.".
Proof.
  split.
  - apply (proj1 (mdescape_breaks "Orders."
                    ("One row" +:+ LF +:+ "per order.") eq_refl)).
  - apply (proj2 (mdescape_breaks "One row" "per order." eq_refl)).
    discriminate.
Defined.

(** ** snakeToTitle *)

Lemma substring_whole s : String.substring 0 (String.length s) s = s.
Proof. induction s as [|c s IH]; [done|]. simpl. by rewrite IH. Qed.

Lemma word_slices (word : string) :
  (1 ≤ String.length word)%nat →
  String.substring 0 1 word
    +:+ String.substring 1 (String.length word - 1) word = word.
Proof.
  destruct word as [|c rest]; simpl; [lia|]. intros _.
  rewrite Nat.sub_0_r, substring_whole. by destruct rest.
Qed.

Lemma concat_cons sep x y l :
  String.concat sep (x :: y :: l) = x +:+ sep +:+ String.concat sep (y :: l).
Proof. reflexivity. Qed.

(** Splitting at one byte and joining with another is replacing the one
    by the other. *)
Lemma concat_split_from old new cur s :
  String.concat (String new "") (split_from old cur s) =
  cur +:+ replace_from (String old "") (String new "") 0 s.
Proof.
  revert cur. induction s as [|c s IH]; intros cur.
  - simpl. by rewrite append_nil_r.
  - rewrite replace_byte_cons. cbn [split_from].
    destruct (Ascii.eqb c old).
    + pose proof (split_from_not_nil old "" s) as Hne.
      specialize (IH ""). destruct (split_from old "" s) as [|y l]; [done|].
      rewrite concat_cons, IH. done.
    + rewrite IH, append_assoc. done.
Qed.

Lemma Join_Split s old new :
  String.concat (String new "") (Split s old) =
  ReplaceAll s (String old "") (String new "").
Proof. unfold Split, ReplaceAll. by rewrite concat_split_from. Qed.

(** Where [strings.ToTitle] leaves the first bytes of the words of two
    bytes or more as they are, [snakeToTitle] only replaces the
    underscores by spaces. *)
Corollary snakeToTitle_as_replace ToTitle val :
  Forall (λ word,
    (String.length word < 2)%nat ∨
    ToTitle (String.substring 0 1 word) = String.substring 0 1 word)
    (Split val "_") →
  snakeToTitle ToTitle val = ReplaceAll val "_" " ".
Proof.
  intros Hall. unfold snakeToTitle. rewrite <- Join_Split. f_equal.
  induction Hall as [|word words Hword _ IH]; [done|]. csimpl. rewrite IH.
  f_equal. unfold titleWord.
  destruct (Nat.leb_spec 2 (String.length word)) as [Hlen|Hlen]; [|done].
  destruct Hword as [Hshort|Hsame]; [lia|]. rewrite Hsame.
  apply word_slices. lia.
Qed.

Lemma split_from_app sep cur a b :
  split_from sep cur (a +:+ String sep b) =
  split_from sep cur a ++ split_from sep "" b.
Proof.
  revert cur. induction a as [|c a IH]; intros cur.
  - change ("" +:+ ?x) with x. simpl. by rewrite Ascii.eqb_refl.
  - rewrite append_cons. cbn [split_from].
    destruct (Ascii.eqb c sep); by rewrite IH.
Qed.

Lemma concat_app sep (l1 l2 : list string) :
  l1 ≠ [] → l2 ≠ [] →
  String.concat sep (l1 ++ l2) =
  String.concat sep l1 +:+ sep +:+ String.concat sep l2.
Proof.
  intros H1 H2. destruct l2 as [|y l2]; [done|]. clear H2.
  induction l1 as [|x l1 IH]; [done|]. clear H1.
  destruct l1 as [|x' l1].
  - by rewrite <- concat_cons.
  - change ((x :: x' :: l1) ++ y :: l2) with (x :: (x' :: l1 ++ y :: l2)).
    rewrite (concat_cons sep x x' (l1 ++ y :: l2)).
    change (x' :: l1 ++ y :: l2) with ((x' :: l1) ++ y :: l2).
    rewrite IH by done. rewrite (concat_cons sep x x' l1).
    by rewrite !append_assoc.
Qed.

Lemma snakeToTitle_word ToTitle word :
  contains "_" word = false →
  snakeToTitle ToTitle word = titleWord ToTitle word.
Proof.
  intros Hword. unfold snakeToTitle, Split.
  by rewrite (split_from_whole _ _ _ Hword).
Qed.

(** X15. [snakeToTitle] works word by word.  An underscore becomes one
    space between the titles of what stands before it and what stands
    after it.  A name without underscore of two bytes or more becomes
    [strings.ToTitle] of its first byte followed by its other bytes
    unchanged.  A name without underscore of fewer than two bytes, the
    empty name and a one-letter name, is returned as it is. *)
Theorem snakeToTitle_word_by_word ToTitle :
  (∀ a b,
     snakeToTitle ToTitle (a +:+ "_" +:+ b) =
     snakeToTitle ToTitle a +:+ " " +:+ snakeToTitle ToTitle b) ∧
  (∀ c d rest,
     contains "_" (String c (String d rest)) = false →
     snakeToTitle ToTitle (String c (String d rest)) =
     ToTitle (String c "") +:+ String d rest) ∧
  (∀ word,
     contains "_" word = false → (String.length word < 2)%nat →
     snakeToTitle ToTitle word = word).
Proof.
  split; [|split].
  - intros a b. unfold snakeToTitle, Split.
    change (a +:+ "_" +:+ b) with (a +:+ String "_" b).
    rewrite split_from_app, fmap_app.
    apply concat_app.
    + pose proof (split_from_not_nil "_" "" a). by destruct (split_from "_" "" a).
    + pose proof (split_from_not_nil "_" "" b). by destruct (split_from "_" "" b).
  - intros c d rest Hword. rewrite (snakeToTitle_word _ _ Hword).
    unfold titleWord. cbn [String.length Nat.leb String.substring Nat.sub].
    by rewrite substring_whole.
  - intros word Hword Hlen. rewrite (snakeToTitle_word _ _ Hword).
    unfold titleWord. apply Nat.leb_gt in Hlen. by rewrite Hlen.
Qed.

Lemma snakeToTitle_word_by_word_witness :
  snakeToTitle upperASCII ("order" +:+ "_" +:+ "items") =
    snakeToTitle upperASCII "order" +:+ " " +:+ snakeToTitle upperASCII "items" ∧
  snakeToTitle upperASCII "order" = upperASCII "o" +:+ "rder" ∧
  snakeToTitle upperASCII "a" = "a".
Proof.
  split; [|split].
  - apply (proj1 (snakeToTitle_word_by_word upperASCII)).
  - apply (proj1 (proj2 (snakeToTitle_word_by_word upperASCII))). reflexivity.
  - apply (proj2 (proj2 (snakeToTitle_word_by_word upperASCII))); [reflexivity|].
    simpl. lia.
Defined.

Example snakeToTitle_samples :
  snakeToTitle upperASCII "order_items" = "Order Items" ∧
  snakeToTitle upperASCII "a_b" = "a b" ∧
  snakeToTitle upperASCII "_tmp" = " Tmp".
Proof. repeat split; reflexivity. Qed.

Lemma titleWord0_Ok ToTitle word :
  word ≠ "" →
  titleWord0 ToTitle word =
    Ok (ToTitle (String.substring 0 1 word)
          +:+ String.substring 1 (String.length word - 1) word).
Proof. by destruct word. Qed.

Lemma mapM_titleWord0 ToTitle words :
  Forall (λ word, (2 ≤ String.length word)%nat) words →
  mapM (titleWord0 ToTitle) words = Ok (titleWord ToTitle <$> words).
Proof.
  induction 1 as [|word words Hlen _ IH]; [done|]. csimpl.
  rewrite titleWord0_Ok by (destruct word; simpl in *; [lia | done]).
  simpl. rewrite IH. simpl. unfold titleWord.
  apply Nat.leb_le in Hlen. by rewrite Hlen.
Qed.

(** X16. The [snakeToTitle] of [src/main.go], which slices every word,
    fails exactly on the names with an empty word (an empty name, a
    leading, trailing or doubled underscore); on a name whose words all
    have two bytes or more it returns what the later [snakeToTitle]
    returns. *)
Theorem snakeToTitle0_against_snakeToTitle ToTitle val :
  (is_Ok (snakeToTitle0 ToTitle val) ↔ Forall (λ word, word ≠ "") (Split val "_")) ∧
  (Forall (λ word, (2 ≤ String.length word)%nat) (Split val "_") →
   snakeToTitle0 ToTitle val = Ok (snakeToTitle ToTitle val)).
Proof.
  unfold snakeToTitle0, snakeToTitle. split.
  - assert (∀ word, is_Ok (titleWord0 ToTitle word) ↔ word ≠ "") as Hword.
    { intros [|c rest]; simpl; split; try done; [by intros [? ?] | by eexists]. }
    assert (Forall (λ word, word ≠ "") (Split val "_") ↔
            is_Ok (mapM (titleWord0 ToTitle) (Split val "_"))) as ->.
    { rewrite mapM_is_Ok.
      split; intros H; (eapply Forall_impl; [exact H|]); intros word; apply Hword. }
    destruct (mapM _ _); simpl; split; intros [? ?]; first [done | by eexists].
  - intros Hall. by rewrite (mapM_titleWord0 _ _ Hall).
Qed.

Lemma snakeToTitle0_against_snakeToTitle_witness :
  snakeToTitle0 upperASCII "order_items" = Ok (snakeToTitle upperASCII "order_items").
Proof.
  apply (proj2 (snakeToTitle0_against_snakeToTitle upperASCII "order_items")).
  repeat constructor; simpl; lia.
Defined.

Example snakeToTitle0_panics :
  snakeToTitle0 upperASCII "order__items" =
    Err "slice bounds out of range [:1] with length 0" ∧
  snakeToTitle0 upperASCII "a_b" = Ok "A B".
Proof. split; reflexivity. Qed.
